(** * Ownership discipline of bpp-core's Parameter

    A shallow embedding of
      - src/Bpp/Utils/Memory.h            (DefaultPtrPolicy, CopyUniquePtr,
                                           ConditionalOwnershipPolicy),
      - src/Bpp/Numeric/Parameter.h       (ParameterEvent, ParameterListener,
                                           Parameter),
      - src/Bpp/Numeric/Prob/ExponentialDiscreteDistribution.cpp
                                          (fireParameterChanged).

    Raw pointers are [option loc] ([None] is nullptr).  Objects live in a
    typed heap [gmap loc T]; a computation is a function from the memory to
    [option] of a result and a memory, where [None] stands for undefined
    behaviour (calling through a dangling pointer, deleting twice). *)

From stdpp Require Import base option list gmap strings fin_maps.

(** Addresses. *)
Abbreviation loc := positive.

(** Modelled from the spec: Clonable.h is not among the sources.  The
    glossary has clone "produce a new, independent object with equivalent
    observable state to the original"; [clone_state] gives the state of the
    new object, and [Memory.virtual_clone] below allocates it. *)
Class Clonable (T : Type) := clone_state : T → T.

Module Memory.

(** What the allocator and the virtual clone were asked to do, in order. *)
Inductive event :=
  | EvClone (src dst : loc)   (* src->clone() was called and returned dst *)
  | EvDelete (a : loc).       (* delete a *)

Global Instance event_eq_dec : EqDecision event.
Proof. solve_decision. Defined.

Record mem (T : Type) := Mem { cells : gmap loc T; log : list event }.
Arguments Mem {T} _ _.
Arguments cells {T} _.
Arguments log {T} _.

Definition M (T A : Type) : Type := mem T → option (A * mem T).

Global Instance M_ret {T} : MRet (M T) := λ A a m, Some (a, m).
Global Instance M_bind {T} : MBind (M T) := λ A B k c m,
  match c m with
  | Some (a, m') => k a m'
  | None => None
  end.

(** The two operations CopyUniquePtr asks of its Policy parameter
    (Memory.h, lines 92-98). *)
Class PtrPolicy (T P : Type) := {
  policy_clone : P → option loc → M T (option loc);
  policy_delete : P → option loc → M T unit
}.

Section memory.
Context {T : Type} `{!Clonable T}.

(** [ptr->clone()] through the virtual table: undefined on a dangling
    pointer, otherwise a new object at an address no live object has. *)
Definition virtual_clone (a : loc) : M T loc := λ m,
  match cells m !! a with
  | Some obj =>
      let a' := fresh (dom (cells m)) in
      Some (a', Mem (<[a' := clone_state obj]> (cells m)) (log m ++ [EvClone a a']))
  | None => None
  end.

(** [std::default_delete<T>::operator()]: [delete ptr].  Deleting nullptr
    does nothing; deleting what is not live is undefined. *)
Definition default_delete (ptr : option loc) : M T unit := λ m,
  match ptr with
  | None => Some (tt, m)
  | Some a =>
      match cells m !! a with
      | Some _ => Some (tt, Mem (delete a (cells m)) (log m ++ [EvDelete a]))
      | None => None
      end
  end.

(** ** DefaultPtrPolicy *)
Inductive DefaultPtrPolicy := mkDefaultPtrPolicy.

Definition DefaultPtrPolicy_clone (_ : DefaultPtrPolicy) (ptr : option loc)
  : M T (option loc) :=
  match ptr with
  | Some a => a' ← virtual_clone a; mret (Some a')
  | None => mret None
  end.

Definition DefaultPtrPolicy_call (_ : DefaultPtrPolicy) (ptr : option loc)
  : M T unit :=
  default_delete ptr.

Global Instance DefaultPtrPolicy_policy : PtrPolicy T DefaultPtrPolicy :=
  {| policy_clone := DefaultPtrPolicy_clone;
     policy_delete := DefaultPtrPolicy_call |}.

(** ** ConditionalOwnershipPolicy *)
Record ConditionalOwnershipPolicy := mkPolicy { ownsPointer : bool }.

(** The constructor's default argument: [ownsPointer_ = true]. *)
Definition ConditionalOwnershipPolicy_default : ConditionalOwnershipPolicy :=
  mkPolicy true.

Definition ConditionalOwnershipPolicy_clone
    (d : ConditionalOwnershipPolicy) (ptr : option loc) : M T (option loc) :=
  if ownsPointer d then DefaultPtrPolicy_clone mkDefaultPtrPolicy ptr
  else mret ptr.

Definition ConditionalOwnershipPolicy_call
    (d : ConditionalOwnershipPolicy) (ptr : option loc) : M T unit :=
  if ownsPointer d then DefaultPtrPolicy_call mkDefaultPtrPolicy ptr
  else mret tt.

Global Instance ConditionalOwnershipPolicy_policy
  : PtrPolicy T ConditionalOwnershipPolicy :=
  {| policy_clone := ConditionalOwnershipPolicy_clone;
     policy_delete := ConditionalOwnershipPolicy_call |}.

(** ** std::unique_ptr<T, Policy>, which CopyUniquePtr inherits from

    The standard library's part: a pointer and the deleter stored with
    it.  [reset], [release], the move assignment and the destructor are
    as the C++ standard gives their effects. *)
Section unique_ptr.
Context {P : Type} `{!PtrPolicy T P}.

Record unique_ptr := UP { get : option loc; get_deleter : P }.

(** [release()]: hands the pointer out and leaves nullptr. *)
Definition release (u : unique_ptr) : option loc * unique_ptr :=
  (get u, UP None (get_deleter u)).

(** [reset(p)]: stores [p], then calls the deleter on the old pointer
    if it was not null. *)
Definition reset (u : unique_ptr) (p : option loc) : M T unique_ptr :=
  let old_p := get u in
  let u' := UP p (get_deleter u) in
  match old_p with
  | Some _ => policy_delete (get_deleter u') old_p ;; mret u'
  | None => mret u'
  end.

(** [operator=(unique_ptr&& u)]: [reset(u.release())], then the deleter
    is assigned from [u]'s.  Returns the target and the moved-from
    source. *)
Definition move_assign (this u : unique_ptr)
  : M T (unique_ptr * unique_ptr) :=
  let '(p, u') := release u in
  this' ← reset this p;
  mret (UP (get this') (get_deleter u'), u').

(** [~unique_ptr()]: calls the deleter unless the pointer is null. *)
Definition unique_ptr_dtor (u : unique_ptr) : M T unit :=
  match get u with
  | Some _ => policy_delete (get_deleter u) (get u)
  | None => mret tt
  end.

(** ** CopyUniquePtr<T, Policy> *)
Definition CopyUniquePtr := unique_ptr.

(** [CopyUniquePtr(const CopyUniquePtr& other)]. *)
Definition CopyUniquePtr_copy (other : CopyUniquePtr) : M T CopyUniquePtr :=
  p ← policy_clone (get_deleter other) (get other);
  mret (UP p (get_deleter other)).

(** [operator=(const CopyUniquePtr& other)]: the temporary is built
    from the clone first, move-assigned into [*this], and destroyed at
    the end of the full expression.  [other] is only read while the
    temporary is built, so [p = p] is [CopyUniquePtr_assign p p]. *)
Definition CopyUniquePtr_assign (this other : CopyUniquePtr)
  : M T CopyUniquePtr :=
  tmp ← CopyUniquePtr_copy other;
  r ← move_assign this tmp;
  unique_ptr_dtor (snd r) ;;
  mret (fst r).

(** [~CopyUniquePtr() = default]. *)
Definition CopyUniquePtr_dtor (p : CopyUniquePtr) : M T unit :=
  unique_ptr_dtor p.

(** ** std::vector<CopyUniquePtr<T, Policy>>

    The copy constructor copies the elements first to last, each with the
    element's copy constructor; the destructor and [erase] destroy
    elements first to last. *)
Fixpoint vector_copy (v : list CopyUniquePtr) : M T (list CopyUniquePtr) :=
  match v with
  | [] => mret []
  | p :: v' =>
      q ← CopyUniquePtr_copy p;
      w ← vector_copy v';
      mret (q :: w)
  end.

Fixpoint vector_destroy (v : list CopyUniquePtr) : M T unit :=
  match v with
  | [] => mret tt
  | p :: v' => CopyUniquePtr_dtor p ;; vector_destroy v'
  end.
End unique_ptr.

(** ** Conditions on the memory, for pointers with the conditional policy *)

(** A pointer the holder owns points to a live object (or is null); what
    a shared pointer points to is somebody else's business. *)
Definition owned_live (m : mem T) (p : CopyUniquePtr (P := ConditionalOwnershipPolicy))
  : Prop :=
  ownsPointer (get_deleter p) = true →
  ∀ a, get p = Some a → is_Some (cells m !! a).

(** The pointer is not null and its referent is live. *)
Definition attached (m : mem T) (p : CopyUniquePtr (P := ConditionalOwnershipPolicy))
  : Prop :=
  ∃ a, get p = Some a ∧ is_Some (cells m !! a).

(** The addresses a vector of pointers owns. *)
Definition owned_addrs (v : list (CopyUniquePtr (P := ConditionalOwnershipPolicy)))
  : list loc :=
  omap (λ p, if ownsPointer (get_deleter p) then get p else None) v.

(** [q] is a copy of [p] made in memory [m], and [m'] is a later memory.
    Owned: [q] points to an object that did not exist in [m], whose state
    is the clone of [p]'s referent, made by a logged call of clone on it.
    Shared: the same pointer.  Null stays null. *)
Definition copied (m m' : mem T)
    (p q : CopyUniquePtr (P := ConditionalOwnershipPolicy)) : Prop :=
  get_deleter q = get_deleter p ∧
  match get p with
  | None => get q = None
  | Some a =>
      if ownsPointer (get_deleter p) then
        ∃ a' obj, get q = Some a' ∧ a' ≠ a ∧
          cells m !! a = Some obj ∧ cells m !! a' = None ∧
          cells m' !! a' = Some (clone_state obj) ∧
          EvClone a a' ∈ log m'
      else get q = Some a
  end.
End memory.

Arguments unique_ptr : clear implicits.
Arguments CopyUniquePtr : clear implicits.
Arguments UP {P} _ _.

(** ** The other constructors and assignments of CopyUniquePtr *)

(** [Policy()]: the value a constructor that is given no policy stores.
    [DefaultPtrPolicy] has no state; [ConditionalOwnershipPolicy()] takes
    the default argument of its constructor. *)
Class DefaultConstructible (P : Type) := default_constructed : P.

Global Instance DefaultPtrPolicy_DefaultConstructible
  : DefaultConstructible DefaultPtrPolicy := mkDefaultPtrPolicy.

Global Instance ConditionalOwnershipPolicy_DefaultConstructible
  : DefaultConstructible ConditionalOwnershipPolicy :=
  ConditionalOwnershipPolicy_default.

Section members.
Context {T : Type} `{!Clonable T} {P : Type} `{!PtrPolicy T P}.

(** [constexpr CopyUniquePtr() = default]. *)
Definition CopyUniquePtr_default `{!DefaultConstructible P} : CopyUniquePtr P :=
  UP None default_constructed.

(** [CopyUniquePtr(std::nullptr_t)] delegates to the default constructor. *)
Definition CopyUniquePtr_nullptr `{!DefaultConstructible P} : CopyUniquePtr P :=
  CopyUniquePtr_default.

(** [explicit CopyUniquePtr(pointer p) : UP(p)]: the policy is value
    initialised. *)
Definition CopyUniquePtr_of_pointer `{!DefaultConstructible P} (p : option loc)
  : CopyUniquePtr P :=
  UP p default_constructed.

(** [CopyUniquePtr(pointer p, const Policy& d) : UP(p, d)], and the same
    with [Policy&&]. *)
Definition CopyUniquePtr_of_pointer_policy (p : option loc) (d : P)
  : CopyUniquePtr P :=
  UP p d.

(** [CopyUniquePtr(CopyUniquePtr&&) = default], and the constructor from
    [std::unique_ptr<U, E>&&] at [U = T], [E = Policy]: the pointer is
    released from [other] and stored with [other]'s deleter.  Returns the
    new pointer and the moved-from [other], which is another object than
    the new one. *)
Definition CopyUniquePtr_move (other : CopyUniquePtr P)
  : CopyUniquePtr P * CopyUniquePtr P :=
  let '(p, other') := release other in
  (UP p (get_deleter other'), other').

(** [operator=(CopyUniquePtr&&) = default] and
    [operator=(std::unique_ptr<U, E>&&)] at [U = T], [E = Policy]:
    [UP::operator=(std::move(other))], for [other] another object than
    [*this]. *)
Definition CopyUniquePtr_move_assign (this other : CopyUniquePtr P)
  : M T (CopyUniquePtr P * CopyUniquePtr P) :=
  move_assign this other.

(** [operator=(std::nullptr_t)]: [UP::operator=(nullptr)], whose effect is
    [reset()]. *)
Definition CopyUniquePtr_assign_nullptr (this : CopyUniquePtr P)
  : M T (CopyUniquePtr P) :=
  reset this None.

(** [operator bool()]: [UP::operator bool()], that is [get() != nullptr]. *)
Definition CopyUniquePtr_bool (p : CopyUniquePtr P) : bool :=
  match get p with
  | Some _ => true
  | None => false
  end.
End members.

(** The owned pointers of the vector are live and no address is owned
    twice. *)
Definition well_owned {T} (m : mem T)
    (v : list (CopyUniquePtr ConditionalOwnershipPolicy)) : Prop :=
  NoDup (owned_addrs v) ∧ ∀ a, a ∈ owned_addrs v → is_Some (cells m !! a).

End Memory.

(** * Parameter.h *)
Module Numeric.
Import Memory.

(** [CopyUniquePtr<X, ConditionalOwnershipPolicy<X>>], the type of
    [constraint_] and of the elements of [listeners_]. *)
Abbreviation owned_or_shared := (CopyUniquePtr ConditionalOwnershipPolicy).

(** [ParameterEvent]: the pointer given to the constructor, copied. *)
Record ParameterEvent := mkParameterEvent { getParameter : option loc }.

Section parameter.
(** [double]: the Parameter stores values and hands them to its
    constraint, nothing else, so the type is left open. *)
Context {V : Type}.

(** The data members of [Parameter] (Parameter.h, lines 104-108).  The name
    is a keyword of Rocq, hence the underscore. *)
Record Parameter_ := mkParameter {
  name_ : string;
  value_ : V;
  precision_ : V;
  constraint_ : owned_or_shared;
  listeners_ : list owned_or_shared
}.

(** [constraint_{nullptr}]: [CopyUniquePtr(std::nullptr_t)] delegates to the
    default constructor, whose policy is default constructed. *)
Definition constraint_initializer : owned_or_shared :=
  UP None ConditionalOwnershipPolicy_default.

(** Modelled from the spec: Constraints.h is not among the sources.  The
    spec gives the interface (section 6): "validate(value) -> accept|reject"
    and "duplicate() -> new independent Constraint". *)
Class Constraint (C : Type) := {
  Constraint_Clonable :: Clonable C;
  validate : C → V → bool
}.

(** [ParameterListener] (Parameter.h, lines 75-92): [clone], [getId] and the
    two notification entry points.  A handler sees the event and, through
    the event's pointer, the parameters as they are during the call; it
    yields the listener's new state, or [None] when it fails.  That a
    handler changes nothing but its own state is the spec's (sections 4.4
    and 5). *)
Class ParameterListener (L : Type) := {
  ParameterListener_Clonable :: Clonable L;
  getId : L → string;
  parameterNameChanged : ParameterEvent → gmap loc Parameter_ → L → option L;
  parameterValueChanged : ParameterEvent → gmap loc Parameter_ → L → option L
}.

Context {C L : Type} `{!Constraint C} `{!ParameterListener L}.

Inductive notification_kind := NameChanged | ValueChanged.

(** One delivered notification: the listener called, the entry point, the
    event, and the value [event.getParameter()->getValue()] gives during
    the call. *)
Record notification := mkNotification {
  n_listener : loc;
  n_kind : notification_kind;
  n_event : ParameterEvent;
  n_seen : option V
}.

(** The program state: the Parameter objects by address, the Constraint
    and ParameterListener objects with their allocation logs, and the
    notifications delivered so far. *)
Record world := World {
  params : gmap loc Parameter_;
  constraints : mem C;
  listeners : mem L;
  notified : list notification
}.

(** [ConstraintException("Parameter::setValue", this, value)]. *)
Inductive exn := ConstraintException (parameter : loc) (badValue : V).

(** How a call ends: it returns, it throws (the state the exception leaves
    is kept), or its behaviour is undefined. *)
Inductive outcome (A : Type) :=
  | Return (a : A) (w : world)
  | Throw (e : exn) (w : world)
  | Undefined.
Arguments Return {A} _ _.
Arguments Throw {A} _ _.
Arguments Undefined {A}.

Definition W (A : Type) : Type := world → outcome A.

Global Instance W_ret : MRet W := λ A a w, Return a w.
Global Instance W_bind : MBind W := λ A B k c w,
  match c w with
  | Return a w' => k a w'
  | Throw e w' => Throw e w'
  | Undefined => Undefined
  end.

Definition throw {A} (e : exn) : W A := λ w, Throw e w.

(** Running a computation of Memory.h on the Constraint objects, and on the
    ParameterListener objects. *)
Definition on_constraints {A} (c : M C A) : W A := λ w,
  match c (constraints w) with
  | Some (a, m) => Return a (World (params w) m (listeners w) (notified w))
  | None => Undefined
  end.

Definition on_listeners {A} (c : M L A) : W A := λ w,
  match c (listeners w) with
  | Some (a, m) => Return a (World (params w) (constraints w) m (notified w))
  | None => Undefined
  end.

(** Reading the state where the read may be through a bad pointer. *)
Definition read {A} (f : world → option A) : W A := λ w,
  match f w with
  | Some a => Return a w
  | None => Undefined
  end.

(** [*this] and the write back of a changed [*this]. *)
Definition load (this : loc) : W Parameter_ :=
  read (λ w, params w !! this).

Definition store (this : loc) (p : Parameter_) : W unit := λ w,
  Return tt (World (<[this := p]> (params w)) (constraints w) (listeners w)
                   (notified w)).

(** ** The implicit copy constructor and the destructor

    Parameter.h declares no copy constructor, so the implicit one copies
    the members one by one in declaration order; [constraint_] and each
    element of [listeners_] go through [CopyUniquePtr]'s copy constructor. *)
Definition Parameter_copy (other : Parameter_) : W Parameter_ :=
  c ← on_constraints (CopyUniquePtr_copy (constraint_ other));
  ls ← on_listeners (vector_copy (listeners_ other));
  mret (mkParameter (name_ other) (value_ other) (precision_ other) c ls).

(** Modelled from the spec: [~Parameter()] is defined in Parameter.cpp, which
    is not among the sources.  "On destruction, owned constraint and owned
    listeners are destroyed, shared ones are left untouched": the members
    are destroyed in reverse declaration order. *)
Definition Parameter_dtor (p : Parameter_) : W unit :=
  on_listeners (vector_destroy (listeners_ p)) ;;
  on_constraints (CopyUniquePtr_dtor (constraint_ p)).

(** [getValue()], inline in the header. *)
Definition getValue (this : loc) : W V :=
  p ← load this; mret (value_ p).

(** ** Member functions defined in Parameter.cpp *)

(** Modelled from the spec: Parameter.cpp is not among the sources.  The
    call [listener->parameterValueChanged(event)] for one element of
    [listeners_]: the listener's state is replaced by what its handler
    yields, and the delivery is written down with the value the handler
    reads through the event.  A null or dangling element is undefined. *)
Definition notify_value_changed (event : ParameterEvent) (l : owned_or_shared)
  : W unit := λ w,
  match get l with
  | None => Undefined
  | Some a =>
      match cells (listeners w) !! a with
      | None => Undefined
      | Some obj =>
          match parameterValueChanged event (params w) obj with
          | None => Undefined
          | Some obj' =>
              Return tt
                (World (params w) (constraints w)
                   (Mem (<[a := obj']> (cells (listeners w)))
                        (log (listeners w)))
                   (notified w ++
                      [mkNotification a ValueChanged event
                         (getParameter event ≫= λ q,
                            value_ <$> params w !! q)]))
          end
      end
  end.

(** Modelled from the spec: Parameter.cpp is not among the sources.  The
    loop of [fireParameterValueChanged], which notifies "every attached
    Listener's value-changed entry point, in the order the listeners were
    added". *)
Fixpoint fire_each (event : ParameterEvent) (ls : list owned_or_shared)
  : W unit :=
  match ls with
  | [] => mret tt
  | l :: ls' => notify_value_changed event l ;; fire_each event ls'
  end.

(** Modelled from the spec: Parameter.cpp is not among the sources.  The
    loop above over [this->listeners_]. *)
Definition fireParameterValueChanged (this : loc) (event : ParameterEvent)
  : W unit :=
  p ← load this; fire_each event (listeners_ p).

(** Modelled from the spec: Parameter.cpp is not among the sources.  The
    accepting branch of [setValue]: "store v, construct a Change Event
    referencing this Parameter, and notify every attached Listener". *)
Definition accept_value (this : loc) (p : Parameter_) (value : V) : W unit :=
  store this (mkParameter (name_ p) value (precision_ p) (constraint_ p)
                (listeners_ p)) ;;
  fireParameterValueChanged this (mkParameterEvent (Some this)).

(** Modelled from the spec: Parameter.cpp is not among the sources.
    "setValue(v): if a Constraint is attached, ask it to validate v; on
    rejection, fail with a ConstraintViolation error and leave the stored
    value unchanged; on acceptance" as above. *)
Definition setValue (this : loc) (value : V) : W unit :=
  p ← load this;
  match get (constraint_ p) with
  | None => accept_value this p value
  | Some a =>
      c ← read (λ w, cells (constraints w) !! a);
      if validate c value then accept_value this p value
      else throw (ConstraintException this value)
  end.

(** Modelled from the spec: Parameter.cpp is not among the sources.
    "setConstraint(c, attach): replaces any existing constraint; if attach
    is true the Parameter takes ownership; if false, the Parameter only
    references c".  The replacement is an assignment to [constraint_] from
    a pointer built with the policy [attach]. *)
Definition setConstraint (this : loc) (constraint : option loc) (attach : bool)
  : W unit :=
  p ← load this;
  r ← on_constraints (move_assign (constraint_ p) (UP constraint (mkPolicy attach)));
  on_constraints (unique_ptr_dtor (snd r)) ;;
  store this (mkParameter (name_ p) (value_ p) (precision_ p) (fst r)
                (listeners_ p)).

(** Modelled from the spec: Parameter.cpp is not among the sources.
    "addParameterListener(listener, attach): appends; attach controls the
    same own/share duplication semantics as constraints". *)
Definition addParameterListener (this : loc) (listener : option loc)
    (attachListener : bool) : W unit :=
  p ← load this;
  store this (mkParameter (name_ p) (value_ p) (precision_ p) (constraint_ p)
                (listeners_ p ++ [UP listener (mkPolicy attachListener)])).

(** The default arguments of the declarations (Parameter.h, lines 199 and
    208); a call that leaves the argument out passes [None] here. *)
Definition setConstraint_attach_default : bool := false.
Definition addParameterListener_attachListener_default : bool := true.

Definition call_setConstraint (this : loc) (constraint : option loc)
    (attach : option bool) : W unit :=
  setConstraint this constraint (default setConstraint_attach_default attach).

Definition call_addParameterListener (this : loc) (listener : option loc)
    (attachListener : option bool) : W unit :=
  addParameterListener this listener
    (default addParameterListener_attachListener_default attachListener).

(** Modelled from the spec: Parameter.cpp is not among the sources.  The
    test [listener->getId() == listenerId] for one element of
    [listeners_]; [None] when the element is null or dangling. *)
Definition has_id (m : mem L) (listenerId : string) (l : owned_or_shared)
  : option bool :=
  a ← get l; obj ← cells m !! a;
  Some (bool_decide (getId obj = listenerId)).

(** Modelled from the spec: Parameter.cpp is not among the sources.  The
    elements kept and the elements removed by a scan for [listenerId],
    each in their order. *)
Fixpoint split_by_id (m : mem L) (listenerId : string)
    (ls : list owned_or_shared)
  : option (list owned_or_shared * list owned_or_shared) :=
  match ls with
  | [] => Some ([], [])
  | l :: ls' =>
      b ← has_id m listenerId l;
      r ← split_by_id m listenerId ls';
      Some (if b : bool then (fst r, l :: snd r) else (l :: fst r, snd r))
  end.

(** Modelled from the spec: Parameter.cpp is not among the sources.
    "removeParameterListener(id): removes all listeners whose id equals
    the given id"; a removed element is destroyed, and with it the
    listener when the parameter owns it (Parameter.h, lines 203-206). *)
Definition removeParameterListener (this : loc) (listenerId : string)
  : W unit :=
  p ← load this;
  r ← read (λ w, split_by_id (listeners w) listenerId (listeners_ p));
  on_listeners (vector_destroy (snd r)) ;;
  store this (mkParameter (name_ p) (value_ p) (precision_ p) (constraint_ p)
                (fst r)).

(** Modelled from the spec: Parameter.cpp is not among the sources.  The
    scan of [hasParameterListener], which stops at the first match. *)
Fixpoint scan_for_id (m : mem L) (listenerId : string)
    (ls : list owned_or_shared) : option bool :=
  match ls with
  | [] => Some false
  | l :: ls' =>
      b ← has_id m listenerId l;
      if b : bool then Some true else scan_for_id m listenerId ls'
  end.

(** Modelled from the spec: Parameter.cpp is not among the sources.
    "hasParameterListener(id): existence check over the same
    multimap-like linear scan". *)
Definition hasParameterListener (this : loc) (listenerId : string) : W bool :=
  p ← load this;
  read (λ w, scan_for_id (listeners w) listenerId (listeners_ p)).

(** ** Vocabulary for the statements about Parameter *)

(** The notification a successful [setValue(v)] on the Parameter at [this]
    delivers to the listener at [a]: value-changed, the event pointing to
    [this], and [v] read back through the event. *)
Definition notice (this : loc) (v : V) (a : loc) : notification :=
  mkNotification a ValueChanged (mkParameterEvent (Some this)) (Some v).

(** The constraint attached to [p], if there is one, accepts [v]. *)
Definition accepts (w : world) (p : Parameter_) (v : V) : Prop :=
  ∀ a, get (constraint_ p) = Some a →
    ∃ c, cells (constraints w) !! a = Some c ∧ validate c v = true.

(** No value-changed handler fails. *)
Definition handlers_total : Prop :=
  ∀ event ps (l : L), is_Some (parameterValueChanged event ps l).

(** [addParameterListener] called once per element, first to last. *)
Fixpoint register_all (this : loc) (regs : list (loc * bool)) : W unit :=
  match regs with
  | [] => mret tt
  | r :: regs' =>
      addParameterListener this (Some (fst r)) (snd r) ;;
      register_all this regs'
  end.

(** The element's listener has the id [listenerId]. *)
Definition matches (m : mem L) (listenerId : string) (l : owned_or_shared)
  : Prop :=
  has_id m listenerId l = Some true.

Global Instance matches_dec m listenerId l : Decision (matches m listenerId l).
Proof. unfold matches. apply _. Defined.

End parameter.

Arguments Parameter_ : clear implicits.
Arguments world : clear implicits.
Arguments notification : clear implicits.
Arguments exn : clear implicits.
Arguments W : clear implicits.
Arguments Return {V C L A} _ _.
Arguments Throw {V C L A} _ _.
Arguments Undefined {V C L A}.

End Numeric.

(** * ExponentialDiscreteDistribution.cpp *)
Module Prob.
Import Memory Numeric.

Section exponential.
(** [double], and the type of the discretized representation. *)
Context {V D : Type}.

(** Modelled from the spec: AbstractDiscreteDistribution and
    AbstractParameterAliasable are not among the sources.  The distribution
    "registers one or more named Parameters as its internal state" (the
    names carry the prefix given to the base constructors) and keeps an
    "internal discretized representation" over a number of classes. *)
Record AbstractDiscreteDistribution := mkAbstractDiscreteDistribution {
  namespace_ : string;
  parameters_ : gmap string loc;
  numberOfCategories_ : nat;
  distribution_ : D
}.

(** The data members of ExponentialDiscreteDistribution named in the
    constructor's initialiser list, after the base class. *)
Record ExponentialDiscreteDistribution := mkExponentialDiscreteDistribution {
  base : AbstractDiscreteDistribution;
  lambdaConstraint_ : option loc;
  lambda_ : V
}.

(** Modelled from the spec: what the absent base class computes.  The
    discretization algorithm is "a pure function of current parameter
    values"; the base class's own [fireParameterChanged] works on the base
    part. *)
Class DiscreteDistributionBase := {
  discretization : nat → V → D;
  base_fireParameterChanged :
    list loc → AbstractDiscreteDistribution → AbstractDiscreteDistribution
}.

Context `{!DiscreteDistributionBase}.

(** Modelled from the spec: [getParameterValue(name)] reads the value of
    the registered parameter [namespace + name]. *)
Definition getParameterValue (name : string) (ps : gmap loc (Parameter_ V))
    (d : ExponentialDiscreteDistribution) : option V :=
  a ← parameters_ (base d) !! (namespace_ (base d) +:+ name);
  p ← ps !! a;
  Some (value_ p).

(** Modelled from the spec: [discretize()] "re-derives its internal
    discretized representation from the current parameter value(s)". *)
Definition discretize (d : ExponentialDiscreteDistribution)
  : ExponentialDiscreteDistribution :=
  mkExponentialDiscreteDistribution
    (mkAbstractDiscreteDistribution
       (namespace_ (base d)) (parameters_ (base d))
       (numberOfCategories_ (base d))
       (discretization (numberOfCategories_ (base d)) (lambda_ d)))
    (lambdaConstraint_ d) (lambda_ d).

(** [ExponentialDiscreteDistribution::fireParameterChanged], lines 74-79:
    the base class's handler, then [lambda_ = getParameterValue("lambda")],
    then [discretize()]. *)
Definition fireParameterChanged (parameters : list loc)
    (ps : gmap loc (Parameter_ V)) (d : ExponentialDiscreteDistribution)
  : option ExponentialDiscreteDistribution :=
  let d1 := mkExponentialDiscreteDistribution
              (base_fireParameterChanged parameters (base d))
              (lambdaConstraint_ d) (lambda_ d) in
  v ← getParameterValue "lambda" ps d1;
  let d2 := mkExponentialDiscreteDistribution (base d1) (lambdaConstraint_ d1) v in
  Some (discretize d2).

(** Modelled from the spec: the distribution "implements the Listener
    capability: on value-changed, re-derives its internal discretized
    representation"; the value-changed entry point hands the event's
    parameter to [fireParameterChanged].  The id is the prefix. *)
Global Instance ExponentialDiscreteDistribution_listener
  : ParameterListener (V := V) ExponentialDiscreteDistribution :=
  {| ParameterListener_Clonable := λ d, d;
     getId := λ d, namespace_ (base d);
     parameterNameChanged := λ _ _ d, Some d;
     parameterValueChanged := λ event ps d,
       fireParameterChanged (option_list (getParameter event)) ps d |}.

(** ** Vocabulary for the statements about the distribution *)

(** The base class's handler keeps the registered parameters and their
    prefix. *)
Definition base_keeps_parameters : Prop :=
  ∀ parameters b,
    parameters_ (base_fireParameterChanged parameters b) = parameters_ b ∧
    namespace_ (base_fireParameterChanged parameters b) = namespace_ b.

(** The distribution's name "lambda" designates the Parameter at [lam]. *)
Definition lambda_is (d : ExponentialDiscreteDistribution) (lam : loc) : Prop :=
  parameters_ (base d) !! (namespace_ (base d) +:+ "lambda") = Some lam.

End exponential.

Arguments AbstractDiscreteDistribution : clear implicits.
Arguments ExponentialDiscreteDistribution : clear implicits.
Arguments DiscreteDistributionBase : clear implicits.

End Prob.

(** * Concrete objects for the examples *)
Module Examples.
Import Memory Numeric Prob.
Local Open Scope Z_scope.

(** A constraint "strictly above [bound]" over integer values. *)
Record above := Above { bound : Z }.

Global Instance above_Constraint : Constraint (V := Z) above :=
  {| Constraint_Clonable := λ c, c;
     validate := λ c v, bound c <? v |}.

(** A listener that writes down the value it sees at each notification. *)
Record recorder := Recorder { rec_id : string; rec_seen : list (option Z) }.

Definition record_value (event : ParameterEvent) (ps : gmap loc (Parameter_ Z))
    (r : recorder) : option recorder :=
  Some (Recorder (rec_id r)
          (rec_seen r ++ [getParameter event ≫= λ q, value_ <$> ps !! q])).

Global Instance recorder_ParameterListener : ParameterListener (V := Z) recorder :=
  {| ParameterListener_Clonable := λ r, r;
     getId := rec_id;
     parameterNameChanged := λ _ _ r, Some r;
     parameterValueChanged := record_value |}.

(** A discretization that fills every class with the rate, and a base
    class whose handler changes nothing. *)
Global Instance flat_base : DiscreteDistributionBase Z (list Z) :=
  {| discretization := λ n v, replicate n v;
     base_fireParameterChanged := λ _ b, b |}.

Definition x_owned : Parameter_ Z :=
  mkParameter "x" 1 0 (UP (Some 1%positive) (mkPolicy true))
    [UP (Some 1%positive) (mkPolicy true); UP (Some 2%positive) (mkPolicy false)].

Definition x_shared : Parameter_ Z :=
  mkParameter "x" 1 0 (UP (Some 1%positive) (mkPolicy false))
    [UP (Some 1%positive) (mkPolicy false); UP (Some 2%positive) (mkPolicy false)].

Definition two_recorders : mem recorder :=
  Mem (<[1%positive := Recorder "a" []]> (<[2%positive := Recorder "b" []]> ∅)) [].

Definition one_constraint : mem above :=
  Mem (<[1%positive := Above 0]> ∅) [].

Definition w_owned : world Z above recorder :=
  World (<[5%positive := x_owned]> ∅) one_constraint two_recorders [].

Definition w_shared : world Z above recorder :=
  World (<[5%positive := x_shared]> ∅) one_constraint two_recorders [].

(** An exponential distribution over four classes whose parameter
    "Exponential.lambda" is the Parameter at address 7, on which it is
    registered as a shared listener. *)
Definition exponential : ExponentialDiscreteDistribution Z (list Z) :=
  mkExponentialDiscreteDistribution
    (mkAbstractDiscreteDistribution "Exponential."
       (<["Exponential.lambda" := 7%positive]> ∅) 4%nat [1; 1; 1; 1])
    None 1.

Definition lambda_parameter : Parameter_ Z :=
  mkParameter "Exponential.lambda" 1 0 (UP (Some 1%positive) (mkPolicy true))
    [UP (Some 3%positive) (mkPolicy false)].

Definition w_exponential
  : world Z above (ExponentialDiscreteDistribution Z (list Z)) :=
  World (<[7%positive := lambda_parameter]> ∅) one_constraint
    (Mem (<[3%positive := exponential]> ∅) []) [].

End Examples.

(** * Proof steps shared by the sections below *)
Import Memory Numeric Prob.

(** Unfolds the operations of Memory.h and the monad they run in. *)
Ltac run_mem :=
  unfold CopyUniquePtr_assign, CopyUniquePtr_copy, CopyUniquePtr_dtor,
    move_assign, release, reset, unique_ptr_dtor;
  cbn [policy_clone policy_delete ConditionalOwnershipPolicy_policy
       DefaultPtrPolicy_policy get get_deleter fst snd];
  unfold ConditionalOwnershipPolicy_clone, ConditionalOwnershipPolicy_call,
    DefaultPtrPolicy_clone, DefaultPtrPolicy_call, default_delete,
    virtual_clone, mbind, M_bind, mret, M_ret;
  cbn [get get_deleter fst snd cells log ownsPointer].

(** Unfolds the monad of the Parameter operations. *)
Ltac run_world :=
  unfold mbind, W_bind, mret, W_ret, load, read, store, throw,
    on_constraints, on_listeners;
  cbn [params constraints listeners notified].

(** * Facts about Memory.h *)
Section memory_facts.
Context {T : Type} `{!Clonable T}.
Implicit Types (m : mem T) (p q : CopyUniquePtr ConditionalOwnershipPolicy).
Implicit Types (d : ConditionalOwnershipPolicy) (a : loc).

Lemma fresh_not_live m : cells m !! fresh (dom (cells m)) = None.
Proof. apply not_elem_of_dom, is_fresh. Qed.

Lemma live_ne_fresh m a : is_Some (cells m !! a) → a ≠ fresh (dom (cells m)).
Proof.
  intros [obj Hobj] ->. rewrite fresh_not_live in Hobj. discriminate.
Qed.

Lemma copy_shared p m :
  ownsPointer (get_deleter p) = false → CopyUniquePtr_copy p m = Some (p, m).
Proof. destruct p as [ptr [b]]; simpl; intros ->. reflexivity. Qed.

Lemma copy_null p m :
  get p = None → CopyUniquePtr_copy p m = Some (p, m).
Proof. destruct p as [ptr [[]]]; simpl; intros ->; reflexivity. Qed.

Lemma copy_owned p m a obj :
  ownsPointer (get_deleter p) = true → get p = Some a →
  cells m !! a = Some obj →
  CopyUniquePtr_copy p m =
    Some (UP (Some (fresh (dom (cells m)))) (get_deleter p),
          Mem (<[fresh (dom (cells m)) := clone_state obj]> (cells m))
              (log m ++ [EvClone a (fresh (dom (cells m)))])).
Proof.
  destruct p as [ptr [b]]; simpl; intros -> -> Hobj.
  run_mem. rewrite Hobj. reflexivity.
Qed.

Lemma dtor_shared p m :
  ownsPointer (get_deleter p) = false → CopyUniquePtr_dtor p m = Some (tt, m).
Proof. destruct p as [[a|] [b]]; simpl; intros ->; reflexivity. Qed.

Lemma dtor_null p m : get p = None → CopyUniquePtr_dtor p m = Some (tt, m).
Proof. destruct p as [ptr [b]]; simpl; intros ->; reflexivity. Qed.

Lemma dtor_owned p m a obj :
  ownsPointer (get_deleter p) = true → get p = Some a →
  cells m !! a = Some obj →
  CopyUniquePtr_dtor p m =
    Some (tt, Mem (delete a (cells m)) (log m ++ [EvDelete a])).
Proof.
  destruct p as [ptr [b]]; simpl; intros -> -> Hobj.
  run_mem. rewrite Hobj. reflexivity.
Qed.

(** Whatever the policy type, a copy that is made carries the source's
    policy object. *)
Lemma copy_policy_any {P} `{!PtrPolicy T P} (other q : CopyUniquePtr P) m m' :
  CopyUniquePtr_copy other m = Some (q, m') → get_deleter q = get_deleter other.
Proof.
  unfold CopyUniquePtr_copy, mbind, M_bind, mret, M_ret.
  destruct (policy_clone _ _ m) as [[r m1]|]; [|discriminate].
  intros [= <- _]. reflexivity.
Qed.

(** C5.  Duplicating a null referent gives null and leaves the memory,
    the log of clone calls included, as it was: the referent's clone is
    not called.  This holds for the conditional policy with either flag,
    and for the default policy it delegates to. *)
Theorem clone_null_is_null d m :
  ConditionalOwnershipPolicy_clone d None m = Some (None, m) ∧
  DefaultPtrPolicy_clone mkDefaultPtrPolicy None m = Some (None, m) ∧
  CopyUniquePtr_copy (UP None d) m = Some (UP None d, m).
Proof. destruct d as [[]]; repeat split. Qed.

(** C3.  Destroying a CopyUniquePtr that holds a referent calls the
    policy's destroy operation on it.  With the flag set the referent is
    freed (one delete is logged); with the flag clear nothing happens, and
    the referent stays live.  So the referent is freed if and only if the
    flag is set. *)
Theorem dtor_frees_iff_owned p m a obj :
  get p = Some a → cells m !! a = Some obj →
  CopyUniquePtr_dtor p m = ConditionalOwnershipPolicy_call (get_deleter p) (Some a) m ∧
  ∃ m', CopyUniquePtr_dtor p m = Some (tt, m') ∧
    (cells m' !! a = None ↔ ownsPointer (get_deleter p) = true) ∧
    (ownsPointer (get_deleter p) = true → log m' = log m ++ [EvDelete a]) ∧
    (ownsPointer (get_deleter p) = false → m' = m).
Proof.
  intros Hp Hobj. split.
  { destruct p as [ptr pol]; simpl in *; subst ptr. reflexivity. }
  destruct (ownsPointer (get_deleter p)) eqn:Hown.
  - eexists. split; [by eapply dtor_owned|]. cbn [cells log].
    rewrite lookup_delete_eq. repeat split; done.
  - exists m. split; [by apply dtor_shared|].
    rewrite Hobj. repeat split; done.
Qed.

(** C4.  A copy, by the copy constructor or by the copy assignment,
    carries the source's policy: the flag of the copy is the flag of the
    source, in either mode. *)
Theorem copy_inherits_policy this other m :
  owned_live m this → owned_live m other →
  (∃ q m', CopyUniquePtr_copy other m = Some (q, m') ∧
           get_deleter q = get_deleter other ∧
           ownsPointer (get_deleter q) = ownsPointer (get_deleter other)) ∧
  (∃ q m', CopyUniquePtr_assign this other m = Some (q, m') ∧
           get_deleter q = get_deleter other ∧
           ownsPointer (get_deleter q) = ownsPointer (get_deleter other)).
Proof.
  intros Hthis Hother.
  assert (∃ q m1, CopyUniquePtr_copy other m = Some (q, m1) ∧
            get_deleter q = get_deleter other ∧
            (∀ a, is_Some (cells m !! a) → is_Some (cells m1 !! a)))
    as (q & m1 & Hcopy & Hpol & Hkeep).
  { destruct (ownsPointer (get_deleter other)) eqn:Hown.
    - destruct (get other) as [b|] eqn:Hb.
      + destruct (Hother Hown b Hb) as [obj Hobj].
        eexists _, _. split; [by eapply copy_owned|]. split; [done|].
        cbn [cells]. intros a Ha.
        rewrite lookup_insert_ne; [done|]. symmetry. by apply live_ne_fresh.
      + exists other, m. split; [by apply copy_null|]. done.
    - exists other, m. split; [by apply copy_shared|]. done. }
  split.
  { exists q, m1. by rewrite Hpol. }
  unfold CopyUniquePtr_assign. unfold mbind at 1. unfold M_bind at 1.
  rewrite Hcopy. clear Hcopy.
  destruct this as [[a|] [[]]], q as [r polq]; simpl in Hpol; subst polq.
  - destruct (Hkeep a) as [obj Hobj]; [by apply Hthis|].
    run_mem. rewrite Hobj. eexists _, _. done.
  - run_mem. eexists _, _. done.
  - run_mem. eexists _, _. done.
  - run_mem. eexists _, _. done.
Qed.

(** The copy assignment, with the temporary spelled out: the copy of
    [other] is made first, then [*this] is reset to it.  The moved-from
    temporary is null, so destroying it does nothing. *)
Lemma assign_is_copy_then_reset {P} `{!PtrPolicy T P}
    (this other : CopyUniquePtr P) m :
  CopyUniquePtr_assign this other m =
    (tmp ← CopyUniquePtr_copy other;
     this' ← reset this (get tmp);
     mret (UP (get this') (get_deleter tmp))) m.
Proof.
  unfold CopyUniquePtr_assign, move_assign, release, unique_ptr_dtor,
    mbind, M_bind, mret, M_ret.
  destruct (CopyUniquePtr_copy other m) as [[tmp m1]|]; [|done].
  destruct (reset this (get tmp) m1) as [[this' m2]|]; done.
Qed.

(** C10.  The copy assignment makes the copy of its argument and then
    resets the target to it.  For the self-assignment [p = p] of a pointer
    that holds a referent: in owned mode the log has the clone before the
    delete of the old referent, and afterwards [p] holds the clone, a live
    object at another address, with the flag still set; in shared mode [p]
    and the memory are as before, the same referent and not freed. *)
Theorem self_assignment_safe p m a obj :
  get p = Some a → cells m !! a = Some obj →
  (∀ this,
     CopyUniquePtr_assign this p m =
       (tmp ← CopyUniquePtr_copy p;
        this' ← reset this (get tmp);
        mret (UP (get this') (get_deleter tmp))) m) ∧
  if ownsPointer (get_deleter p) then
    ∃ a' m',
      CopyUniquePtr_assign p p m = Some (UP (Some a') (get_deleter p), m') ∧
      a' ≠ a ∧ cells m !! a' = None ∧
      cells m' !! a' = Some (clone_state obj) ∧
      cells m' !! a = None ∧
      log m' = log m ++ [EvClone a a'; EvDelete a]
  else
    CopyUniquePtr_assign p p m = Some (p, m) ∧ cells m !! a = Some obj.
Proof.
  intros Hp Hobj. split; [intros this; apply assign_is_copy_then_reset|].
  revert Hp. destruct p as [ptr [[]]]; simpl; intros ->.
  - exists (fresh (dom (cells m))).
    assert (a ≠ fresh (dom (cells m))) as Hne by (by apply live_ne_fresh).
    eexists. split.
    { run_mem. rewrite Hobj. cbn [cells log].
      rewrite lookup_insert_ne, Hobj by done. reflexivity. }
    cbn [cells log]. split; [done|]. split; [apply fresh_not_live|].
    split; [by rewrite lookup_delete_ne, lookup_insert_eq|].
    split; [apply lookup_delete_eq|].
    by rewrite <- app_assoc.
  - split; [reflexivity|done].
Qed.

(** ** Copying and destroying, one pointer and a vector of them *)

Lemma owned_live_mono m m' p :
  cells m ⊆ cells m' → owned_live m p → owned_live m' p.
Proof.
  intros Hsub Hp Hown a Ha. destruct (Hp Hown a Ha) as [obj Hobj].
  exists obj. by eapply lookup_weaken.
Qed.

Lemma copy_copied p m :
  owned_live m p →
  ∃ q m', CopyUniquePtr_copy p m = Some (q, m') ∧ copied m m' p q ∧
    cells m ⊆ cells m' ∧ log m `prefix_of` log m'.
Proof.
  intros Hp. destruct (ownsPointer (get_deleter p)) eqn:Hown.
  - destruct (get p) as [a|] eqn:Ha.
    + destruct (Hp Hown a Ha) as [obj Hobj].
      eexists _, _. split; [by eapply copy_owned|].
      split; [|split].
      * split; [done|]. cbn [get]. rewrite Ha, Hown.
        exists (fresh (dom (cells m))), obj. cbn [cells log].
        split; [done|]. split; [symmetry; by apply live_ne_fresh|].
        split; [done|]. split; [apply fresh_not_live|].
        split; [apply lookup_insert_eq|].
        apply elem_of_app. right. apply list_elem_of_singleton. done.
      * cbn [cells]. apply insert_subseteq, fresh_not_live.
      * cbn [log]. by apply prefix_app_r.
    + exists p, m. split; [by apply copy_null|].
      split; [|done]. split; [done|]. by rewrite Ha.
  - exists p, m. split; [by apply copy_shared|].
    split; [|done]. split; [done|]. rewrite Hown. by destruct (get p).
Qed.

Lemma copied_weaken m0 m1 m2 m3 p q :
  copied m1 m2 p q → owned_live m0 p →
  cells m0 ⊆ cells m1 → cells m2 ⊆ cells m3 → log m2 `prefix_of` log m3 →
  copied m0 m3 p q.
Proof.
  intros [Hpol Hq] Hp H01 H23 Hlog. split; [done|].
  destruct (get p) as [a|] eqn:Ha; [|done].
  destruct (ownsPointer (get_deleter p)) eqn:Hown; [|done].
  destruct Hq as (a' & obj & Hqa & Hne & Hobj & Hfresh & Hnew & Hev).
  destruct (Hp Hown a Ha) as [obj0 Hobj0].
  assert (obj0 = obj) as ->.
  { pose proof (lookup_weaken _ _ _ _ Hobj0 H01). congruence. }
  exists a', obj. split; [done|]. split; [done|]. split; [done|].
  split; [by eapply lookup_weaken_None|].
  split; [by eapply lookup_weaken|].
  destruct Hlog as [k ->]. apply elem_of_app. by left.
Qed.

Lemma vector_copy_copied (v : list (CopyUniquePtr ConditionalOwnershipPolicy)) m :
  Forall (owned_live m) v →
  ∃ v' m', vector_copy v m = Some (v', m') ∧
    Forall2 (copied m m') v v' ∧
    cells m ⊆ cells m' ∧ log m `prefix_of` log m'.
Proof.
  revert m. induction v as [|p v IH]; intros m Hv.
  - exists [], m. split; [reflexivity|]. split; [constructor|done].
  - apply Forall_cons in Hv as [Hp Hv].
    destruct (copy_copied p m Hp) as (q & m1 & Hcopy & Hq & Hsub1 & Hlog1).
    destruct (IH m1) as (v' & m' & Hrest & Hv' & Hsub2 & Hlog2).
    { eapply Forall_impl; [exact Hv|]. intros x. by apply owned_live_mono. }
    exists (q :: v'), m'. split.
    { cbn [vector_copy]. unfold mbind, M_bind. rewrite Hcopy, Hrest.
      reflexivity. }
    split; [|split].
    + constructor.
      * by eapply (copied_weaken m m m1 m').
      * clear -Hv Hv' Hsub1. induction Hv' as [|x y xs ys Hxy _ IH'].
        { constructor. }
        apply Forall_cons in Hv as [Hx Hxs].
        constructor; [|by apply IH'].
        by eapply (copied_weaken m m1 m' m').
    + by etrans.
    + by etrans.
Qed.

Lemma vector_destroy_spec (v : list (CopyUniquePtr ConditionalOwnershipPolicy)) m :
  NoDup (owned_addrs v) →
  (∀ a, a ∈ owned_addrs v → is_Some (cells m !! a)) →
  ∃ m', vector_destroy v m = Some (tt, m') ∧
    (∀ a, cells m' !! a =
            if decide (a ∈ owned_addrs v) then None else cells m !! a) ∧
    log m' = log m ++ (EvDelete <$> owned_addrs v).
Proof.
  revert m. induction v as [|p v IH]; intros m Hnd Hlive.
  - exists m. split; [reflexivity|]. split.
    + intros a. by rewrite decide_False by apply not_elem_of_nil.
    + by rewrite app_nil_r.
  - destruct (ownsPointer (get_deleter p)) eqn:Hown;
      [destruct (get p) as [a0|] eqn:Ha0|].
    + assert (owned_addrs (p :: v) = a0 :: owned_addrs v) as Heq.
      { unfold owned_addrs. cbn [omap list_omap]. by rewrite Hown, Ha0. }
      rewrite Heq in *. apply NoDup_cons in Hnd as [Hnot Hnd].
      destruct (Hlive a0) as [obj Hobj]; [by left|].
      destruct (IH (Mem (delete a0 (cells m)) (log m ++ [EvDelete a0])) Hnd)
        as (m' & Hrun & Hcells & Hlog).
      { intros a Ha. cbn [cells]. rewrite lookup_delete_ne.
        - apply Hlive. by right.
        - intros ->. done. }
      exists m'. split.
      { cbn [vector_destroy]. unfold mbind, M_bind.
        rewrite (dtor_owned p m a0 obj) by done. exact Hrun. }
      split.
      * intros a. rewrite Hcells. cbn [cells].
        destruct (decide (a = a0)) as [->|Hne].
        -- rewrite (decide_True (P := a0 ∈ a0 :: _)) by (by left).
           rewrite lookup_delete_eq. by destruct (decide _).
        -- rewrite lookup_delete_ne by done.
           destruct (decide (a ∈ owned_addrs v)) as [Hin|Hnin].
           ++ by rewrite decide_True by (by right).
           ++ rewrite decide_False; [done|].
              intros [->|Hin]%elem_of_cons; done.
      * rewrite Hlog. cbn [log fmap list_fmap]. by rewrite <- app_assoc.
    + assert (owned_addrs (p :: v) = owned_addrs v) as Heq.
      { unfold owned_addrs. cbn [omap list_omap]. by rewrite Hown, Ha0. }
      rewrite Heq in *. destruct (IH m Hnd Hlive) as (m' & Hrun & Hrest).
      exists m'. split; [|done].
      cbn [vector_destroy]. unfold mbind, M_bind.
      by rewrite (dtor_null p m).
    + assert (owned_addrs (p :: v) = owned_addrs v) as Heq.
      { unfold owned_addrs. cbn [omap list_omap]. by rewrite Hown. }
      rewrite Heq in *. destruct (IH m Hnd Hlive) as (m' & Hrun & Hrest).
      exists m'. split; [|done].
      cbn [vector_destroy]. unfold mbind, M_bind.
      by rewrite (dtor_shared p m).
Qed.

Lemma owned_addrs_elem (v : list (CopyUniquePtr ConditionalOwnershipPolicy)) a :
  a ∈ owned_addrs v ↔
  ∃ p, p ∈ v ∧ ownsPointer (get_deleter p) = true ∧ get p = Some a.
Proof.
  unfold owned_addrs. rewrite list_elem_of_omap. split.
  - intros (p & Hin & Hp). exists p. split; [done|].
    by destruct (ownsPointer (get_deleter p)).
  - intros (p & Hin & Hown & Hp). exists p. split; [done|]. by rewrite Hown.
Qed.

Lemma owned_addrs_filter_NoDup (P : CopyUniquePtr ConditionalOwnershipPolicy → Prop)
    `{!∀ x, Decision (P x)} v :
  NoDup (owned_addrs v) → NoDup (owned_addrs (filter P v)).
Proof.
  induction v as [|p v IH]; [done|]. intros Hnd.
  assert (NoDup (owned_addrs v)) as Hv.
  { revert Hnd. unfold owned_addrs. cbn [omap list_omap].
    destruct (if ownsPointer _ then _ else _); [|done].
    by intros [_ ?]%NoDup_cons. }
  destruct (decide (P p)) as [Hp|Hp].
  - rewrite filter_cons_True by done. revert Hnd.
    unfold owned_addrs. cbn [omap list_omap].
    destruct (if ownsPointer _ then _ else _) as [a|]; [|by intros; apply IH].
    intros [Hnot _]%NoDup_cons. apply NoDup_cons. split; [|by apply IH].
    intros (x & [_ Hin]%list_elem_of_filter & Hx)%list_elem_of_omap.
    apply Hnot, list_elem_of_omap. by exists x.
  - rewrite filter_cons_False by done. by apply IH.
Qed.

End memory_facts.

(** * Facts about Parameter *)
Section parameter_facts.
Context {V C L : Type} `{!Constraint (V := V) C} `{!ParameterListener (V := V) L}.
Implicit Types (w : world V C L) (p : Parameter_ V) (this a : loc) (v : V).
Implicit Types (l : owned_or_shared) (ls : list owned_or_shared).

(** ** The copy constructor *)

Lemma Parameter_copy_spec p w :
  owned_live (constraints w) (constraint_ p) →
  Forall (owned_live (listeners w)) (listeners_ p) →
  ∃ c mc ls ml,
    Parameter_copy p w =
      Return (mkParameter (name_ p) (value_ p) (precision_ p) c ls)
             (World (params w) mc ml (notified w)) ∧
    copied (constraints w) mc (constraint_ p) c ∧
    Forall2 (copied (listeners w) ml) (listeners_ p) ls ∧
    cells (constraints w) ⊆ cells mc ∧ cells (listeners w) ⊆ cells ml ∧
    log (constraints w) `prefix_of` log mc ∧
    log (listeners w) `prefix_of` log ml.
Proof.
  intros Hc Hls.
  destruct (copy_copied _ _ Hc) as (c & mc & Hcopy & Hcc & Hsubc & Hlogc).
  destruct (vector_copy_copied _ _ Hls) as (ls & ml & Hvec & Hcl & Hsubl & Hlogl).
  exists c, mc, ls, ml. split; [|done].
  unfold Parameter_copy. run_world. rewrite Hcopy.
  cbn [params constraints listeners notified]. rewrite Hvec. reflexivity.
Qed.

(** C1.  The copy constructor of a Parameter whose owned pointers are
    live returns a duplicate with the same name, value and precision.
    Where a pointer of the original ([constraint_], or an element of
    [listeners_]) has the flag set, the duplicate's pointer holds a new
    object, at an address that was free before, made by the referent's
    clone; where the flag is clear, the duplicate's pointer is the same
    pointer.  ([copied] says this; the listeners correspond one to one,
    in order.)  Every object that existed before is unchanged. *)
Theorem copy_clones_owned_aliases_shared p w :
  owned_live (constraints w) (constraint_ p) →
  Forall (owned_live (listeners w)) (listeners_ p) →
  ∃ q w',
    Parameter_copy p w = Return q w' ∧
    name_ q = name_ p ∧ value_ q = value_ p ∧ precision_ q = precision_ p ∧
    copied (constraints w) (constraints w') (constraint_ p) (constraint_ q) ∧
    Forall2 (copied (listeners w) (listeners w')) (listeners_ p) (listeners_ q) ∧
    cells (constraints w) ⊆ cells (constraints w') ∧
    cells (listeners w) ⊆ cells (listeners w') ∧
    params w' = params w.
Proof.
  intros Hc Hls.
  destruct (Parameter_copy_spec p w Hc Hls)
    as (c & mc & ls & ml & Hrun & Hcc & Hcl & Hsubc & Hsubl & _).
  eexists _, _. split; [exact Hrun|]. cbn. done.
Qed.

(** What [copied] means for the two modes: a shared copy reads the same
    object as the original whatever is written to it; an owned copy keeps
    reading the clone when the original's referent is overwritten. *)
Lemma copied_shared_aliases {T} `{!Clonable T} (m m' : mem T) (x y : owned_or_shared) :
  copied m m' x y → ownsPointer (get_deleter x) = false → get y = get x.
Proof.
  intros [_ Hy] Hown. rewrite Hown in Hy. by destruct (get x).
Qed.

Lemma copied_owned_independent {T} `{!Clonable T} (m m' : mem T)
    (x y : owned_or_shared) a (new_state : T) :
  copied m m' x y → ownsPointer (get_deleter x) = true → get x = Some a →
  ∃ a' obj, get y = Some a' ∧ cells m !! a = Some obj ∧
    <[a := new_state]> (cells m') !! a' = Some (clone_state obj).
Proof.
  intros [_ Hy] Hown Ha. rewrite Ha, Hown in Hy.
  destruct Hy as (a' & obj & Hya & Hne & Hobj & _ & Hnew & _).
  exists a', obj. by rewrite lookup_insert_ne.
Qed.

(** ** setValue *)

Lemma attached_insert (m : mem L) a obj l :
  attached m l → attached (Mem (<[a := obj]> (cells m)) (log m)) l.
Proof.
  intros (a' & Ha' & Hlive). exists a'. split; [done|]. cbn [cells].
  destruct (decide (a = a')) as [->|Hne].
  - rewrite lookup_insert_eq. by eexists.
  - by rewrite lookup_insert_ne.
Qed.

Lemma fire_each_spec this v ls w :
  handlers_total (V := V) (L := L) →
  Forall (attached (listeners w)) ls →
  value_ <$> params w !! this = Some v →
  ∃ ml, fire_each (mkParameterEvent (Some this)) ls w =
          Return tt (World (params w) (constraints w) ml
                       (notified w ++ (notice this v <$> omap get ls))) ∧
        (∀ l, attached (listeners w) l → attached ml l) ∧
        log ml = log (listeners w).
Proof.
  intros Htotal. revert w. induction ls as [|l ls IH]; intros w Hls Hv.
  - exists (listeners w). split; [|done].
    cbn. rewrite app_nil_r. by destruct w.
  - apply Forall_cons in Hls as [(a & Ha & obj & Hobj) Hls].
    destruct (Htotal (mkParameterEvent (Some this)) (params w) obj)
      as [obj' Hobj'].
    set (w1 := World (params w) (constraints w)
                 (Mem (<[a := obj']> (cells (listeners w))) (log (listeners w)))
                 (notified w ++ [notice this v a])).
    destruct (IH w1) as (ml & Hrun & Hatt & Hlog).
    { eapply Forall_impl; [exact Hls|]. intros x. apply attached_insert. }
    { done. }
    exists ml. split; [|split].
    + cbn [fire_each]. run_world. unfold notify_value_changed.
      rewrite Ha, Hobj, Hobj'. cbn [getParameter mbind option_bind].
      rewrite Hv. fold (notice this v a). fold w1. rewrite Hrun.
      cbn [params constraints notified omap list_omap]. rewrite Ha.
      cbn [fmap list_fmap]. subst w1. cbn [params constraints notified].
      by rewrite <- app_assoc.
    + intros x Hx. by apply Hatt, attached_insert.
    + by rewrite Hlog.
Qed.

Lemma accept_value_spec this p v w :
  handlers_total (V := V) (L := L) →
  Forall (attached (listeners w)) (listeners_ p) →
  ∃ ml, accept_value this p v w =
          Return tt
            (World (<[this := mkParameter (name_ p) v (precision_ p)
                                (constraint_ p) (listeners_ p)]> (params w))
                   (constraints w) ml
                   (notified w ++ (notice this v <$> omap get (listeners_ p)))) ∧
        (∀ l, attached (listeners w) l → attached ml l) ∧
        log ml = log (listeners w).
Proof.
  intros Htotal Hls.
  set (p' := mkParameter (name_ p) v (precision_ p) (constraint_ p) (listeners_ p)).
  set (w1 := World (<[this := p']> (params w)) (constraints w) (listeners w)
               (notified w)).
  destruct (fire_each_spec this v (listeners_ p) w1 Htotal) as (ml & Hrun & Hrest).
  { done. }
  { cbn. by rewrite lookup_insert_eq. }
  exists ml. split; [|done].
  unfold accept_value, fireParameterValueChanged. run_world.
  fold p'. fold w1. rewrite lookup_insert_eq. cbn [listeners_ p']. exact Hrun.
Qed.

Lemma setValue_rejected this p a c v w :
  params w !! this = Some p → get (constraint_ p) = Some a →
  cells (constraints w) !! a = Some c → validate c v = false →
  setValue this v w = Throw (ConstraintException this v) w.
Proof.
  intros Hp Ha Hc Hv. unfold setValue. run_world.
  rewrite Hp, Ha. run_world. by rewrite Hc, Hv.
Qed.

Lemma setValue_accepted this p v w :
  params w !! this = Some p → accepts w p v →
  setValue this v w = accept_value this p v w.
Proof.
  intros Hp Hacc. unfold setValue. run_world. rewrite Hp.
  destruct (get (constraint_ p)) as [a|] eqn:Ha; [|done].
  destruct (Hacc a Ha) as (c & Hc & Hv). run_world. by rewrite Hc, Hv.
Qed.

Lemma getValue_after_store this p w :
  params w !! this = Some p → getValue this w = Return (value_ p) w.
Proof. intros Hp. unfold getValue. run_world. by rewrite Hp. Qed.

(** C2.  A Parameter with a live constraint [c] attached, whose listeners
    can all be notified.  [setValue(v)] returns if and only if [c] accepts
    [v], and then the stored value is [v].  When [c] rejects [v] the call
    throws ConstraintException to its caller at once, and the state the
    exception leaves is the state before the call, so getValue gives the
    value the Parameter had. *)
Theorem setValue_succeeds_iff_valid this p a c v w :
  params w !! this = Some p → get (constraint_ p) = Some a →
  cells (constraints w) !! a = Some c →
  Forall (attached (listeners w)) (listeners_ p) →
  handlers_total (V := V) (L := L) →
  ((∃ w', setValue this v w = Return tt w') ↔ validate c v = true) ∧
  (validate c v = true →
     ∃ w', setValue this v w = Return tt w' ∧ getValue this w' = Return v w') ∧
  (validate c v = false →
     setValue this v w = Throw (ConstraintException this v) w ∧
     getValue this w = Return (value_ p) w).
Proof.
  intros Hp Ha Hc Hls Htotal.
  assert (validate c v = true →
          ∃ w', setValue this v w = Return tt w' ∧ getValue this w' = Return v w')
    as Hok.
  { intros Hv.
    destruct (accept_value_spec this p v w Htotal Hls) as (ml & Hrun & _).
    eexists. split.
    - rewrite (setValue_accepted this p v w Hp); [exact Hrun|].
      intros a' Ha'. exists c. split; [congruence|done].
    - unfold getValue. run_world. by rewrite lookup_insert_eq. }
  split; [|split].
  - split.
    + intros [w' Hrun]. destruct (validate c v) eqn:Hv; [done|].
      rewrite (setValue_rejected this p a c v w) in Hrun by done. discriminate.
    + intros Hv. destruct (Hok Hv) as (w' & Hrun & _). by exists w'.
  - exact Hok.
  - intros Hv. split.
    + by eapply setValue_rejected.
    + by apply getValue_after_store.
Qed.

(** ** Listeners *)

Lemma register_all_spec this p regs w :
  params w !! this = Some p →
  register_all this regs w =
    Return tt
      (World (<[this := mkParameter (name_ p) (value_ p) (precision_ p)
                          (constraint_ p)
                          (listeners_ p ++
                             ((λ r, UP (Some (fst r)) (mkPolicy (snd r))) <$> regs))]>
                (params w))
             (constraints w) (listeners w) (notified w)).
Proof.
  revert p w. induction regs as [|r regs IH]; intros p w Hp.
  - cbn. rewrite app_nil_r. destruct p, w; cbn in *.
    by rewrite insert_id.
  - cbn [register_all]. unfold addParameterListener. run_world. rewrite Hp.
    run_world. erewrite IH by (cbn; apply lookup_insert_eq).
    cbn. rewrite insert_insert_eq, <- app_assoc. reflexivity.
Qed.

(** C6.  Register the listeners [regs] on a Parameter, in this order,
    after the listeners it already has; then [setValue(v)] with [v]
    accepted.  The call returns, and it has delivered one value-changed
    notification per listener, no more, in the order of registration; each
    carries an event pointing to this Parameter, through which the listener
    reads [v]. *)
Theorem setValue_notifies_in_registration_order this p regs v w :
  params w !! this = Some p →
  Forall (attached (listeners w)) (listeners_ p) →
  (∀ a, a ∈ regs.*1 → is_Some (cells (listeners w) !! a)) →
  accepts w p v →
  handlers_total (V := V) (L := L) →
  ∃ w', (register_all this regs ;; setValue this v) w = Return tt w' ∧
    notified w' =
      notified w ++ (notice this v <$> (omap get (listeners_ p) ++ regs.*1)) ∧
    length (omap get (listeners_ p) ++ regs.*1) =
      length (listeners_ p) + length regs ∧
    getValue this w' = Return v w'.
Proof.
  intros Hp Hls Hregs Hacc Htotal.
  set (entries := (λ r : loc * bool, UP (Some (fst r)) (mkPolicy (snd r))) <$> regs).
  set (p1 := mkParameter (name_ p) (value_ p) (precision_ p) (constraint_ p)
               (listeners_ p ++ entries)).
  set (w1 := World (<[this := p1]> (params w)) (constraints w) (listeners w)
               (notified w)).
  assert (Forall (attached (listeners w)) entries) as Hentries.
  { subst entries. apply Forall_fmap, Forall_forall. intros [a b] Hin.
    exists a. split; [done|]. apply Hregs.
    apply list_elem_of_fmap. by exists (a, b). }
  assert (omap get entries = regs.*1) as Hget.
  { subst entries. clear. induction regs as [|[a b] regs IH]; [done|].
    cbn. by rewrite IH. }
  assert (omap get (listeners_ p1) = omap get (listeners_ p) ++ regs.*1) as Hall.
  { cbn [listeners_ p1]. by rewrite omap_app, Hget. }
  destruct (accept_value_spec this p1 v w1 Htotal) as (ml & Hrun & _).
  { cbn [listeners_ p1 listeners w1]. by apply Forall_app. }
  eexists. split; [|split; [|split]].
  - unfold mbind at 1. unfold W_bind at 1.
    rewrite (register_all_spec this p regs w Hp). fold entries p1 w1.
    rewrite (setValue_accepted this p1 v w1); [exact Hrun| |].
    + cbn. apply lookup_insert_eq.
    + intros a Ha. exact (Hacc a Ha).
  - cbn [notified w1]. by rewrite Hall.
  - rewrite length_app, length_fmap. f_equal.
    clear -Hls. induction Hls as [|l ls (a & Ha & _) _ IH]; [done|].
    cbn. rewrite Ha. cbn. by rewrite IH.
  - unfold getValue. run_world. by rewrite lookup_insert_eq.
Qed.

Lemma has_id_attached (m : mem L) listenerId l :
  attached m l →
  ∃ a obj, get l = Some a ∧ cells m !! a = Some obj ∧
    has_id m listenerId l = Some (bool_decide (getId obj = listenerId)).
Proof.
  intros (a & Ha & obj & Hobj). exists a, obj. split; [done|]. split; [done|].
  unfold has_id. rewrite Ha. cbn. by rewrite Hobj.
Qed.

Lemma matches_or_not (m : mem L) listenerId l :
  attached m l →
  has_id m listenerId l = Some true ∧ matches m listenerId l ∨
  has_id m listenerId l = Some false ∧ ¬ matches m listenerId l.
Proof.
  intros Hl.
  destruct (has_id_attached m listenerId l Hl) as (a & obj & _ & _ & Hid).
  unfold matches. rewrite Hid. destruct (bool_decide _); [left|right]; done.
Qed.

Lemma split_by_id_spec (m : mem L) listenerId ls :
  Forall (attached m) ls →
  split_by_id m listenerId ls =
    Some (filter (λ l, ¬ matches m listenerId l) ls,
          filter (matches m listenerId) ls).
Proof.
  induction 1 as [|l ls Hl _ IH]; [done|].
  cbn [split_by_id]. rewrite IH.
  destruct (matches_or_not m listenerId l Hl) as [[-> Hm]|[-> Hm]].
  - rewrite (filter_cons_True (matches m listenerId)) by done.
    by rewrite filter_cons_False by (intros Hn; by apply Hn).
  - rewrite (filter_cons_False (matches m listenerId)) by done.
    by rewrite filter_cons_True by done.
Qed.

Lemma scan_for_id_spec (m : mem L) listenerId ls :
  Forall (attached m) ls →
  ∃ b, scan_for_id m listenerId ls = Some b ∧
    (b = false ↔ ¬ ∃ l, l ∈ ls ∧ matches m listenerId l).
Proof.
  induction 1 as [|l ls Hl _ (b & IH & Hb)].
  - exists false. split; [done|]. split; [|done].
    intros _ (l & Hin & _). by apply not_elem_of_nil in Hin.
  - cbn [scan_for_id].
    destruct (matches_or_not m listenerId l Hl) as [[-> Hm]|[-> Hm]]; cbn.
    + exists true. split; [done|]. split; [done|].
      intros Hno. exfalso. apply Hno. exists l. split; [by left|done].
    + exists b. split; [done|]. rewrite Hb. split.
      * intros Hno (x & [->|Hin]%elem_of_cons & Hx); [done|].
        apply Hno. by exists x.
      * intros Hno (x & Hin & Hx). apply Hno. exists x. split; [by right|done].
Qed.

(** C7.  On a Parameter whose listener pointers are live and which owns no
    listener twice, [removeParameterListener(id)] returns; the Parameter
    then has exactly the listeners whose id is not [id], in their order,
    the rest of the Parameter is as before, and the listener objects that
    stay are untouched.  Afterwards [hasParameterListener(id)] is false;
    and for any id it is false if and only if no remaining listener has
    that id. *)
Theorem removeParameterListener_removes_all_matching this p listenerId w :
  params w !! this = Some p →
  Forall (attached (listeners w)) (listeners_ p) →
  NoDup (owned_addrs (listeners_ p)) →
  ∃ w',
    removeParameterListener this listenerId w = Return tt w' ∧
    params w' !! this =
      Some (mkParameter (name_ p) (value_ p) (precision_ p) (constraint_ p)
              (filter (λ l, ¬ matches (listeners w) listenerId l) (listeners_ p))) ∧
    (∀ l a, l ∈ filter (λ l, ¬ matches (listeners w) listenerId l) (listeners_ p) →
            get l = Some a →
            cells (listeners w') !! a = cells (listeners w) !! a) ∧
    hasParameterListener this listenerId w' = Return false w' ∧
    (∀ id', ∃ b, hasParameterListener this id' w' = Return b w' ∧
       (b = false ↔
        ¬ ∃ l, l ∈ filter (λ l, ¬ matches (listeners w) listenerId l) (listeners_ p) ∧
               matches (listeners w') id' l)).
Proof.
  intros Hp Hls Hnd.
  set (m := listeners w).
  set (kept := filter (λ l, ¬ matches m listenerId l) (listeners_ p)).
  set (removed := filter (matches m listenerId) (listeners_ p)).
  destruct (vector_destroy_spec removed m) as (m' & Hdestroy & Hcells & _).
  { by apply owned_addrs_filter_NoDup. }
  { intros a (l & [_ Hin]%list_elem_of_filter & _ & Ha)%owned_addrs_elem.
    rewrite Forall_forall in Hls. destruct (Hls l Hin) as (a' & Ha' & Hlive).
    by simplify_eq. }
  assert (∀ l a, l ∈ kept → get l = Some a → cells m' !! a = cells m !! a)
    as Hkept.
  { intros l a [Hno Hin]%list_elem_of_filter Ha. rewrite Hcells.
    destruct (decide (a ∈ owned_addrs removed)) as [Hfreed|]; [|done].
    exfalso. apply Hno.
    apply owned_addrs_elem in Hfreed as (l2 & [Hm2 _]%list_elem_of_filter & _ & Ha2).
    unfold matches, has_id in *. by rewrite Ha; rewrite Ha2 in Hm2. }
  assert (Forall (attached m') kept) as Hatt.
  { apply Forall_forall. intros l Hl.
    pose proof Hl as [_ Hin]%list_elem_of_filter.
    rewrite Forall_forall in Hls. destruct (Hls l Hin) as (a & Ha & Hlive).
    exists a. split; [done|]. by rewrite (Hkept l a). }
  set (p' := mkParameter (name_ p) (value_ p) (precision_ p) (constraint_ p) kept).
  set (w' := World (<[this := p']> (params w)) (constraints w) m' (notified w)).
  assert (∀ id', ∃ b, hasParameterListener this id' w' = Return b w' ∧
            (b = false ↔ ¬ ∃ l, l ∈ kept ∧ matches (listeners w') id' l))
    as Hhas.
  { intros id'. destruct (scan_for_id_spec m' id' kept Hatt) as (b & Hscan & Hb).
    exists b. split; [|done].
    unfold hasParameterListener, w'. run_world. rewrite lookup_insert_eq.
    cbn [listeners_ p' listeners]. by rewrite Hscan. }
  exists w'. split; [|split; [|split; [|split]]].
  - unfold removeParameterListener. run_world. rewrite Hp.
    fold m. rewrite (split_by_id_spec m listenerId (listeners_ p) Hls).
    fold kept removed. cbn [fst snd]. fold m. by rewrite Hdestroy.
  - cbn. apply lookup_insert_eq.
  - exact Hkept.
  - destruct (Hhas listenerId) as (b & Hrun & Hb). rewrite Hrun.
    replace b with false; [done|]. symmetry. apply Hb.
    intros (l & Hin & Hm). pose proof Hin as [Hno Hin']%list_elem_of_filter.
    apply Hno. rewrite Forall_forall in Hls.
    destruct (Hls l Hin') as (a & Ha & _).
    unfold matches, has_id in *. rewrite Ha in *. cbn in *.
    by rewrite <- (Hkept l a).
  - exact Hhas.
Qed.

(** ** Attaching with the default arguments *)

Lemma setConstraint_spec this p constraint attach w :
  params w !! this = Some p →
  owned_live (constraints w) (constraint_ p) →
  ∃ mc, setConstraint this constraint attach w =
          Return tt
            (World (<[this := mkParameter (name_ p) (value_ p) (precision_ p)
                                (UP constraint (mkPolicy attach))
                                (listeners_ p)]> (params w))
                   mc (listeners w) (notified w)).
Proof.
  intros Hp Hlive. unfold setConstraint. run_world. rewrite Hp.
  destruct (constraint_ p) as [[a|] [[]]] eqn:Hc.
  - destruct (Hlive eq_refl a eq_refl) as [obj Hobj].
    run_mem. rewrite Hobj. run_world. by eexists.
  - run_mem. run_world. by eexists.
  - run_mem. run_world. by eexists.
  - run_mem. run_world. by eexists.
Qed.

Lemma Parameter_dtor_spec p w :
  NoDup (owned_addrs (listeners_ p)) →
  (∀ a, a ∈ owned_addrs (listeners_ p) → is_Some (cells (listeners w) !! a)) →
  ownsPointer (get_deleter (constraint_ p)) = false →
  ∃ ml, Parameter_dtor p w =
          Return tt (World (params w) (constraints w) ml (notified w)) ∧
        ∀ a, cells ml !! a =
               if decide (a ∈ owned_addrs (listeners_ p)) then None
               else cells (listeners w) !! a.
Proof.
  intros Hnd Hlive Hshared.
  destruct (vector_destroy_spec _ _ Hnd Hlive) as (ml & Hrun & Hcells & _).
  exists ml. split; [|done].
  unfold Parameter_dtor. run_world. rewrite Hrun. run_world.
  rewrite dtor_shared by done. by destruct w.
Qed.

(** C9.  The two default arguments differ.  [setConstraint(c)] without
    the [attach] argument leaves the Parameter with a constraint pointer
    whose flag is clear; [addParameterListener(l)] without the
    [attachListener] argument appends a pointer whose flag is set.  So a
    copy of the Parameter has the same constraint pointer and a clone of
    the listener at a new address, and destroying the Parameter frees the
    listener and leaves the constraint objects as they are. *)
Theorem attach_defaults_asymmetric this p (c l : loc) (obj : L) w :
  params w !! this = Some p →
  owned_live (constraints w) (constraint_ p) →
  Forall (owned_live (listeners w)) (listeners_ p) →
  NoDup (owned_addrs (listeners_ p ++ [UP (Some l) (mkPolicy true)])) →
  cells (listeners w) !! l = Some obj →
  ∃ w1 p1,
    (call_setConstraint this (Some c) None ;;
     call_addParameterListener this (Some l) None) w = Return tt w1 ∧
    params w1 !! this = Some p1 ∧
    constraint_ p1 = UP (Some c) (mkPolicy false) ∧
    listeners_ p1 = listeners_ p ++ [UP (Some l) (mkPolicy true)] ∧
    (∃ q w2 (l' : loc),
       Parameter_copy p1 w1 = Return q w2 ∧
       constraint_ q = UP (Some c) (mkPolicy false) ∧
       constraints w2 = constraints w1 ∧
       last (listeners_ q) = Some (UP (Some l') (mkPolicy true)) ∧
       l' ≠ l ∧ cells (listeners w1) !! l' = None ∧
       cells (listeners w2) !! l' = Some (clone_state obj)) ∧
    (∃ w3,
       Parameter_dtor p1 w1 = Return tt w3 ∧
       cells (listeners w3) !! l = None ∧
       constraints w3 = constraints w1).
Proof.
  intros Hp Hc Hls Hnd Hobj.
  destruct (setConstraint_spec this p (Some c) false w Hp Hc) as (mc & Hset).
  set (e := UP (Some l) (mkPolicy true)) in *.
  set (p1 := mkParameter (name_ p) (value_ p) (precision_ p)
               (UP (Some c) (mkPolicy false)) (listeners_ p ++ [e])).
  set (w1 := World (<[this := p1]> (params w)) mc (listeners w) (notified w)).
  assert (Forall (owned_live (listeners w)) (listeners_ p ++ [e])) as Hall.
  { apply Forall_app. split; [done|]. apply Forall_singleton.
    intros _ a [= <-]. by eexists. }
  exists w1, p1. split; [|split; [|split; [|split; [|split]]]].
  - unfold call_setConstraint, call_addParameterListener.
    unfold setConstraint_attach_default,
      addParameterListener_attachListener_default.
    cbn [from_option id].
    unfold mbind at 1. unfold W_bind at 1. rewrite Hset.
    unfold addParameterListener. run_world. rewrite lookup_insert_eq.
    run_world. cbn [name_ value_ precision_ constraint_ listeners_].
    by rewrite insert_insert_eq.
  - cbn. apply lookup_insert_eq.
  - done.
  - done.
  - destruct (vector_copy_copied (listeners_ p ++ [e]) (listeners w) Hall)
      as (ls' & ml & Hvec & Hcopied & _).
    apply Forall2_app_inv_l in Hcopied as (ls0 & es & _ & He & ->).
    apply Forall2_cons_inv_l in He as (e' & es' & [Hpol He'] & Hnil & ->).
    apply Forall2_nil_inv_l in Hnil as ->.
    cbn [get get_deleter ownsPointer e] in He'.
    destruct He' as (l' & obj' & Hl' & Hne & Hobj' & Hfresh & Hnew & _).
    assert (obj' = obj) as -> by congruence.
    eexists _, _, l'. split; [|split; [|split; [|split; [|split]]]].
    + unfold Parameter_copy, p1, w1. run_world.
      cbn [constraint_ listeners_].
      rewrite copy_shared by done. run_world. rewrite Hvec. reflexivity.
    + done.
    + done.
    + cbn [listeners_]. rewrite last_snoc. f_equal.
      destruct e' as [g pol]. cbn in *. by subst.
    + done.
    + done.
  - destruct (Parameter_dtor_spec p1 w1) as (ml & Hrun & Hcells).
    + done.
    + intros a (x & Hin & Hown & Hx)%owned_addrs_elem.
      rewrite Forall_forall in Hall. by apply (Hall x Hin Hown).
    + done.
    + exists (World (params w1) (constraints w1) ml (notified w1)).
      split; [done|]. split; [|done]. cbn [listeners]. rewrite Hcells.
      rewrite decide_True; [done|].
      apply owned_addrs_elem. exists e. split; [|done].
      apply elem_of_app. right. by apply list_elem_of_singleton.
Qed.

End parameter_facts.

(** * Facts about ExponentialDiscreteDistribution *)
Section exponential_facts.
Context {V D C : Type} `{!Constraint (V := V) C} `{!DiscreteDistributionBase V D}.
Implicit Types (w : world V C (ExponentialDiscreteDistribution V D)).
Implicit Types (d : ExponentialDiscreteDistribution V D) (p : Parameter_ V).

(** What [fireParameterChanged] leaves: the base class has handled the
    change, [lambda_] is the value read from the parameter, and the
    classes are discretized from it. *)
Lemma fireParameterChanged_spec (lam : loc) parameters ps d p :
  base_keeps_parameters (V := V) (D := D) → lambda_is d lam →
  ps !! lam = Some p →
  fireParameterChanged parameters ps d =
    Some (discretize
            (mkExponentialDiscreteDistribution
               (base_fireParameterChanged parameters (base d))
               (lambdaConstraint_ d) (value_ p))).
Proof.
  intros Hbase Hname Hp. unfold fireParameterChanged, getParameterValue.
  cbn [base lambdaConstraint_].
  destruct (Hbase parameters (base d)) as [-> ->].
  unfold lambda_is in Hname. rewrite Hname. cbn [mbind option_bind].
  rewrite Hp. reflexivity.
Qed.

(** Registering the distribution on a Parameter without listeners makes it
    the Parameter's one listener. *)
Lemma addParameterListener_first (lam a : loc) p (attach : bool) w :
  params w !! lam = Some p → listeners_ p = [] →
  addParameterListener lam (Some a) attach w =
    Return tt
      (World (<[lam := mkParameter (name_ p) (value_ p) (precision_ p)
                         (constraint_ p) [UP (Some a) (mkPolicy attach)]]>
                (params w))
             (constraints w) (listeners w) (notified w)).
Proof.
  intros Hp Hnone. unfold addParameterListener. run_world. rewrite Hp.
  run_world. by rewrite Hnone.
Qed.

(** C8.  An exponential distribution [d] is the listener registered on
    the Parameter that its name "lambda" designates, and [setValue(v)] on
    that Parameter is accepted.  Then the distribution is notified once,
    and after the call its [lambda_] is [v] and its classes are the
    discretization for [v]: it is [discretize] of the state with the new
    rate.  The registration, the constraint and the name are as before, so
    the same holds for the next [setValue]. *)
Theorem exponential_recomputes_once (lam a : loc) p pol d (v : V) w :
  base_keeps_parameters (V := V) (D := D) →
  params w !! lam = Some p →
  listeners_ p = [UP (Some a) pol] →
  cells (listeners w) !! a = Some d →
  lambda_is d lam →
  accepts w p v →
  ∃ w' d',
    setValue lam v w = Return tt w' ∧
    notified w' = notified w ++ [notice lam v a] ∧
    cells (listeners w') !! a = Some d' ∧
    d' = discretize (mkExponentialDiscreteDistribution
                       (base_fireParameterChanged [lam] (base d))
                       (lambdaConstraint_ d) v) ∧
    lambda_ d' = v ∧
    distribution_ (base d') = discretization (numberOfCategories_ (base d')) v ∧
    getValue lam w' = Return v w' ∧
    params w' !! lam =
      Some (mkParameter (name_ p) v (precision_ p) (constraint_ p) (listeners_ p)) ∧
    constraints w' = constraints w ∧
    lambda_is d' lam.
Proof.
  intros Hbase Hp Hone Hd Hname Hacc.
  set (p2 := mkParameter (name_ p) v (precision_ p) (constraint_ p) (listeners_ p)).
  set (d' := discretize (mkExponentialDiscreteDistribution
                           (base_fireParameterChanged [lam] (base d))
                           (lambdaConstraint_ d) v)).
  assert (setValue lam v w =
          Return tt (World (<[lam := p2]> (params w)) (constraints w)
                       (Mem (<[a := d']> (cells (listeners w)))
                            (log (listeners w)))
                       (notified w ++ [notice lam v a]))) as Hset.
  { rewrite (setValue_accepted lam p v w Hp Hacc).
    unfold accept_value, fireParameterValueChanged. run_world.
    rewrite lookup_insert_eq. fold p2. cbn [listeners_ p2]. rewrite Hone.
    cbn [fire_each]. run_world.
    unfold notify_value_changed. cbn [get listeners params cells].
    rewrite Hd. cbn [parameterValueChanged ExponentialDiscreteDistribution_listener
                     getParameter option_list].
    rewrite (fireParameterChanged_spec lam [lam] _ d p2 Hbase Hname)
      by apply lookup_insert_eq.
    cbn [mbind option_bind fmap option_fmap option_map value_ p2
         constraints notified log].
    rewrite lookup_insert_eq. reflexivity. }
  eexists _, d'. split; [exact Hset|]. cbn [notified listeners cells params constraints].
  split; [done|]. split; [apply lookup_insert_eq|]. split; [done|].
  split; [done|]. split; [done|].
  split; [unfold getValue; run_world; by rewrite lookup_insert_eq|].
  split; [apply lookup_insert_eq|]. split; [done|].
  unfold lambda_is, d', discretize. cbn [base namespace_ parameters_].
  destruct (Hbase [lam] (base d)) as [-> ->]. exact Hname.
Qed.

End exponential_facts.

(** * More facts about Memory.h *)

(** Unfolds the members of CopyUniquePtr that the sections above do not
    use. *)
Ltac run_members :=
  unfold CopyUniquePtr_move_assign, CopyUniquePtr_assign_nullptr,
    CopyUniquePtr_move, CopyUniquePtr_of_pointer,
    CopyUniquePtr_of_pointer_policy, CopyUniquePtr_nullptr,
    CopyUniquePtr_default, CopyUniquePtr_bool, default_constructed,
    ConditionalOwnershipPolicy_DefaultConstructible,
    DefaultPtrPolicy_DefaultConstructible, ConditionalOwnershipPolicy_default;
  run_mem.

Section default_policy_facts.
Context {T : Type} `{!Clonable T}.
Implicit Types (m : mem T) (p : CopyUniquePtr DefaultPtrPolicy) (a : loc).

(** X1.  With the default policy a pointer that holds a live referent is
    always copied deeply: the copy points to a new object with the clone's
    state at an address that was free, one call of clone is logged and no
    existing object changes.  Its destructor always deletes the referent. *)
Theorem default_policy_clones_and_frees p m a obj :
  get p = Some a → cells m !! a = Some obj →
  (∃ a',
     CopyUniquePtr_copy p m =
       Some (UP (Some a') mkDefaultPtrPolicy,
             Mem (<[a' := clone_state obj]> (cells m)) (log m ++ [EvClone a a'])) ∧
     a' ≠ a ∧ cells m !! a' = None) ∧
  CopyUniquePtr_dtor p m =
    Some (tt, Mem (delete a (cells m)) (log m ++ [EvDelete a])).
Proof.
  destruct p as [ptr []]; simpl; intros -> Hobj. split.
  - exists (fresh (dom (cells m))). split; [|split].
    + run_mem. rewrite Hobj. reflexivity.
    + symmetry. by apply live_ne_fresh.
    + apply fresh_not_live.
  - run_mem. rewrite Hobj. reflexivity.
Qed.

End default_policy_facts.

Section conditional_policy_facts.
Context {T : Type} `{!Clonable T}.
Implicit Types (m : mem T) (p q this other : CopyUniquePtr ConditionalOwnershipPolicy).
Implicit Types (v : list (CopyUniquePtr ConditionalOwnershipPolicy)) (a : loc).

Lemma owned_addrs_cons p v :
  owned_addrs (p :: v) =
    match (if ownsPointer (get_deleter p) then get p else None) with
    | Some a => a :: owned_addrs v
    | None => owned_addrs v
    end.
Proof. reflexivity. Qed.

Lemma well_owned_owned_live m v : well_owned m v → Forall (owned_live m) v.
Proof.
  intros [_ Hlive]. apply Forall_forall. intros p Hin Hown a Ha.
  apply Hlive, owned_addrs_elem. by exists p.
Qed.

(** What the destructor does to the memory, in one equation. *)
Lemma dtor_effect p m :
  owned_live m p →
  CopyUniquePtr_dtor p m =
    Some (tt, match get p with
              | Some a =>
                  if ownsPointer (get_deleter p)
                  then Mem (delete a (cells m)) (log m ++ [EvDelete a])
                  else m
              | None => m
              end).
Proof.
  intros Hp. destruct (get p) as [a|] eqn:Ha; [|by apply dtor_null].
  destruct (ownsPointer (get_deleter p)) eqn:Hown; [|by apply dtor_shared].
  destruct (Hp Hown a Ha) as [obj Hobj]. by eapply dtor_owned.
Qed.

(** [reset(g)] does to the memory what the destructor does, and stores
    [g]. *)
Lemma reset_as_dtor this (g : option loc) m :
  reset this g m =
    match CopyUniquePtr_dtor this m with
    | Some (_, m') => Some (UP g (get_deleter this), m')
    | None => None
    end.
Proof.
  destruct this as [[a|] d]; [|reflexivity].
  unfold reset, CopyUniquePtr_dtor, unique_ptr_dtor, mbind, M_bind, mret, M_ret.
  cbn [get get_deleter]. by destruct (policy_delete d (Some a) m) as [[[] m']|].
Qed.

(** The copy of a vector, with everything the copy constructor does to the
    memory: the owned addresses of the copy are new and pairwise distinct,
    every other address reads as before, and the log grows by one clone
    per owned pointer, in order. *)
Lemma vector_copy_effect v m :
  Forall (owned_live m) v →
  ∃ v' m', vector_copy v m = Some (v', m') ∧
    get_deleter <$> v' = get_deleter <$> v ∧
    NoDup (owned_addrs v') ∧
    (∀ a, a ∈ owned_addrs v' → cells m !! a = None ∧ is_Some (cells m' !! a)) ∧
    (∀ a, a ∉ owned_addrs v' → cells m' !! a = cells m !! a) ∧
    length (owned_addrs v') = length (owned_addrs v) ∧
    log m' = log m ++ zip_with EvClone (owned_addrs v) (owned_addrs v').
Proof.
  revert m. induction v as [|p v IH]; intros m Hv.
  - exists [], m. split; [done|]. split; [done|]. split; [constructor|].
    split; [intros a Ha; by apply not_elem_of_nil in Ha|].
    split; [done|]. split; [done|]. cbn. by rewrite app_nil_r.
  - apply Forall_cons in Hv as [Hp Hv].
    destruct (ownsPointer (get_deleter p)) eqn:Hown;
      [destruct (get p) as [a0|] eqn:Ha0|].
    + destruct (Hp Hown a0 Ha0) as [obj Hobj].
      set (a1 := fresh (dom (cells m))).
      set (m1 := Mem (<[a1 := clone_state obj]> (cells m)) (log m ++ [EvClone a0 a1])).
      assert (cells m !! a1 = None) as Hfresh by apply fresh_not_live.
      destruct (IH m1) as (v' & m' & Hrun & Hpol & Hnd & Hnew & Hold & Hlen & Hlog).
      { eapply Forall_impl; [exact Hv|]. intros x. apply owned_live_mono.
        cbn [cells m1]. by apply insert_subseteq. }
      exists (UP (Some a1) (get_deleter p) :: v'), m'.
      assert (owned_addrs (UP (Some a1) (get_deleter p) :: v') = a1 :: owned_addrs v')
        as Hq by (rewrite owned_addrs_cons; cbn; by rewrite Hown).
      assert (owned_addrs (p :: v) = a0 :: owned_addrs v)
        as Hpv by (rewrite owned_addrs_cons; by rewrite Hown, Ha0).
      assert (a1 ∉ owned_addrs v') as Hnot.
      { intros Hin. destruct (Hnew a1 Hin) as [Hnone _].
        cbn [cells m1] in Hnone. by rewrite lookup_insert_eq in Hnone. }
      rewrite Hq, Hpv. split; [|split; [|split; [|split; [|split; [|split]]]]].
      * cbn [vector_copy]. unfold mbind, M_bind.
        rewrite (copy_owned p m a0 obj Hown Ha0 Hobj). fold a1 m1.
        by rewrite Hrun.
      * cbn. by rewrite Hpol.
      * by apply NoDup_cons.
      * intros a [->|Hin]%elem_of_cons.
        -- split; [done|]. rewrite (Hold a1 Hnot). cbn [cells m1].
           rewrite lookup_insert_eq. by eexists.
        -- destruct (Hnew a Hin) as [Hnone Hsome]. split; [|done].
           cbn [cells m1] in Hnone.
           destruct (decide (a1 = a)) as [->|Hne]; [done|].
           by rewrite lookup_insert_ne in Hnone.
      * intros a Ha. apply not_elem_of_cons in Ha as [Hne Ha].
        rewrite (Hold a Ha). cbn [cells m1]. by rewrite lookup_insert_ne.
      * cbn. by rewrite Hlen.
      * rewrite Hlog. cbn [log m1 zip_with]. by rewrite <- app_assoc.
    + destruct (IH m Hv) as (v' & m' & Hrun & Hpol & Hrest).
      exists (p :: v'), m'.
      assert (∀ w, owned_addrs (p :: w) = owned_addrs w) as Hskip
        by (intros w; rewrite owned_addrs_cons; by rewrite Hown, Ha0).
      rewrite !Hskip. split; [|split; [|done]].
      * cbn [vector_copy]. unfold mbind, M_bind.
        rewrite (copy_null p m Ha0). by rewrite Hrun.
      * cbn. by rewrite Hpol.
    + destruct (IH m Hv) as (v' & m' & Hrun & Hpol & Hrest).
      exists (p :: v'), m'.
      assert (∀ w, owned_addrs (p :: w) = owned_addrs w) as Hskip
        by (intros w; rewrite owned_addrs_cons; by rewrite Hown).
      rewrite !Hskip. split; [|split; [|done]].
      * cbn [vector_copy]. unfold mbind, M_bind.
        rewrite (copy_shared p m Hown). by rewrite Hrun.
      * cbn. by rewrite Hpol.
Qed.

(** X2.  Copying a vector of pointers and then destroying the copy leaves
    every object as it was: the copy owns exactly the objects its making
    created, so its destruction frees those and nothing of the original. *)
Theorem copy_then_destroy_copy v m :
  Forall (owned_live m) v →
  ∃ v' m' m'',
    vector_copy v m = Some (v', m') ∧
    vector_destroy v' m' = Some (tt, m'') ∧
    cells m'' = cells m.
Proof.
  intros Hv.
  destruct (vector_copy_effect v m Hv)
    as (v' & m' & Hcopy & _ & Hnd & Hnew & Hold & _).
  destruct (vector_destroy_spec v' m' Hnd) as (m'' & Hdestroy & Hcells & _).
  { intros a Ha. by apply Hnew. }
  exists v', m', m''. split; [done|]. split; [done|].
  apply map_eq. intros a. rewrite Hcells.
  destruct (decide (a ∈ owned_addrs v')) as [Hin|Hnin].
  - symmetry. by apply Hnew.
  - by apply Hold.
Qed.

(** X3.  Copying keeps ownership exclusive.  When the owned pointers of a
    vector are live and no address is owned twice, the same holds of the
    vector and its copy taken together; so the original and the copy can
    both be destroyed, in any memory reached this way, without deleting
    an object twice. *)
Theorem copy_keeps_ownership_exclusive v m :
  well_owned m v →
  ∃ v' m' m'',
    vector_copy v m = Some (v', m') ∧
    well_owned m' (v ++ v') ∧
    vector_destroy (v ++ v') m' = Some (tt, m'').
Proof.
  intros Hwf. pose proof Hwf as [Hnd Hlive].
  destruct (vector_copy_effect v m (well_owned_owned_live m v Hwf))
    as (v' & m' & Hcopy & _ & Hnd' & Hnew & Hold & _).
  assert (well_owned m' (v ++ v')) as Hboth.
  { unfold well_owned, owned_addrs. rewrite omap_app.
    fold (owned_addrs v) (owned_addrs v'). split.
    - apply NoDup_app. split; [done|]. split; [|done].
      intros a Ha Ha'. destruct (Hnew a Ha') as [Hnone _].
      destruct (Hlive a Ha) as [obj Hobj]. congruence.
    - intros a [Ha|Ha]%elem_of_app.
      + destruct (decide (a ∈ owned_addrs v')) as [Hin|Hnin].
        * by apply Hnew.
        * rewrite (Hold a Hnin). by apply Hlive.
      + by apply Hnew. }
  destruct Hboth as [Hnd2 Hlive2].
  destruct (vector_destroy_spec (v ++ v') m' Hnd2 Hlive2) as (m'' & Hdestroy & _).
  by exists v', m', m''.
Qed.

(** X4.  Move assignment from another pointer [u]: the target takes [u]'s
    pointer and [u]'s policy, [u] is left null, and the memory is what
    destroying the old target gives.  So the referent the target held is
    freed if and only if the target's old flag was set, whatever flag
    comes in. *)
Theorem move_assign_releases_by_old_flag this u m :
  owned_live m this →
  ∃ m',
    CopyUniquePtr_move_assign this u m = Some ((u, UP None (get_deleter u)), m') ∧
    CopyUniquePtr_dtor this m = Some (tt, m') ∧
    ∀ a obj, get this = Some a → cells m !! a = Some obj →
      (cells m' !! a = None ↔ ownsPointer (get_deleter this) = true).
Proof.
  intros Hthis. rewrite (dtor_effect this m Hthis).
  eexists. split; [|split; [reflexivity|]].
  - destruct u as [g d]. destruct this as [[a|] [[]]]; run_members.
    + destruct (Hthis eq_refl a eq_refl) as [obj Hobj]. by rewrite Hobj.
    + reflexivity.
    + reflexivity.
    + reflexivity.
  - intros a obj Ha Hobj. rewrite Ha.
    destruct (ownsPointer (get_deleter this)); cbn [cells].
    + by rewrite lookup_delete_eq.
    + by rewrite Hobj.
Qed.

(** X5.  Assigning nullptr: the pointer becomes null and tests false, its
    policy stays, and the memory is what destroying the pointer gives: the
    referent is freed if and only if the flag is set. *)
Theorem assign_nullptr_releases this m :
  owned_live m this →
  ∃ m',
    CopyUniquePtr_assign_nullptr this m = Some (UP None (get_deleter this), m') ∧
    CopyUniquePtr_bool (UP None (get_deleter this)) = false ∧
    CopyUniquePtr_dtor this m = Some (tt, m') ∧
    ∀ a obj, get this = Some a → cells m !! a = Some obj →
      (cells m' !! a = None ↔ ownsPointer (get_deleter this) = true).
Proof.
  intros Hthis. rewrite (dtor_effect this m Hthis).
  eexists. split; [|split; [reflexivity|split; [reflexivity|]]].
  - destruct this as [[a|] [[]]]; run_members.
    + destruct (Hthis eq_refl a eq_refl) as [obj Hobj]. by rewrite Hobj.
    + reflexivity.
    + reflexivity.
    + reflexivity.
  - intros a obj Ha Hobj. rewrite Ha.
    destruct (ownsPointer (get_deleter this)); cbn [cells].
    + by rewrite lookup_delete_eq.
    + by rewrite Hobj.
Qed.

(** X6.  Move construction transfers the ownership: the new pointer is the
    old one's pointer and policy, the source is left null and tests false,
    and destroying the source and then the new pointer does to the memory
    what destroying the original would have done, so an owned referent is
    deleted once. *)
Theorem move_transfers_ownership other m :
  owned_live m other →
  fst (CopyUniquePtr_move other) = other ∧
  CopyUniquePtr_bool (snd (CopyUniquePtr_move other)) = false ∧
  CopyUniquePtr_dtor (snd (CopyUniquePtr_move other)) m = Some (tt, m) ∧
  (CopyUniquePtr_dtor (snd (CopyUniquePtr_move other)) ;;
   CopyUniquePtr_dtor (fst (CopyUniquePtr_move other))) m =
    CopyUniquePtr_dtor other m ∧
  ∀ a, get other = Some a → ownsPointer (get_deleter other) = true →
    ∃ m', CopyUniquePtr_dtor other m = Some (tt, m') ∧
          log m' = log m ++ [EvDelete a].
Proof.
  intros Hother. rewrite (dtor_effect other m Hother).
  destruct other as [g [b]]. cbn [CopyUniquePtr_move release fst snd get get_deleter].
  split; [done|]. split; [done|]. split; [done|]. split.
  - unfold mbind, M_bind. cbn [CopyUniquePtr_dtor unique_ptr_dtor get mret M_ret].
    apply (dtor_effect (UP g (mkPolicy b)) m Hother).
  - intros a -> ->. eexists. split; [reflexivity|done].
Qed.

(** X7.  Copy assignment from [other] to a target that is any pointer:
    the result is a copy of [other] ([copied], so a clone when [other]
    owns, the same pointer when it shares, with [other]'s policy), and the
    referent the target held is freed if and only if the target's old flag
    was set. *)
Theorem assign_copies_and_releases this other m :
  owned_live m this → owned_live m other →
  ∃ q m',
    CopyUniquePtr_assign this other m = Some (q, m') ∧
    copied m m' other q ∧
    ∀ a obj, get this = Some a → cells m !! a = Some obj →
      (cells m' !! a = None ↔ ownsPointer (get_deleter this) = true).
Proof.
  intros Hthis Hother.
  destruct (copy_copied other m Hother) as (q & m1 & Hcopy & Hq & Hsub & Hlog).
  pose proof (owned_live_mono m m1 this Hsub Hthis) as Hthis1.
  exists q. eexists. split; [|split].
  - rewrite assign_is_copy_then_reset. unfold mbind, M_bind, mret, M_ret.
    rewrite Hcopy, reset_as_dtor, (dtor_effect this m1 Hthis1).
    cbn [get get_deleter]. destruct q as [g d]. reflexivity.
  - destruct Hq as [Hpol Hq]. split; [done|].
    destruct (get other) as [b|] eqn:Hb; [|done].
    destruct (ownsPointer (get_deleter other)) eqn:Hown; [|done].
    destruct Hq as (b' & obj & Hqb & Hne & Hobj & Hfresh & Hnew & Hev).
    exists b', obj. split; [done|]. split; [done|]. split; [done|].
    split; [done|].
    destruct (get this) as [a|] eqn:Ha; [|done].
    destruct (ownsPointer (get_deleter this)) eqn:Hown'; [|done].
    cbn [cells log]. split.
    + rewrite lookup_delete_ne; [done|]. intros Heq.
      destruct (Hthis Hown' a Ha) as [x Hx]. congruence.
    + apply elem_of_app. by left.
  - intros a obj Ha Hobj. rewrite Ha.
    pose proof (lookup_weaken _ _ _ _ Hobj Hsub) as Hobj1.
    destruct (ownsPointer (get_deleter this)); cbn [cells].
    + by rewrite lookup_delete_eq.
    + by rewrite Hobj1.
Qed.

(** X8.  A pointer built from a raw pointer alone owns it: the policy is
    the default one, whose flag is set.  Destroying it deletes the
    referent, and destroying a second pointer built from the same raw
    pointer is then a second delete of the same object, which is
    undefined.  Built with the flag clear, a pointer leaves the referent
    alone. *)
Theorem pointer_alone_is_owned m a obj :
  cells m !! a = Some obj →
  ownsPointer (get_deleter (CopyUniquePtr_of_pointer (P := ConditionalOwnershipPolicy) (Some a))) = true ∧
  CopyUniquePtr_dtor (CopyUniquePtr_of_pointer (Some a)) m =
    Some (tt, Mem (delete a (cells m)) (log m ++ [EvDelete a])) ∧
  (CopyUniquePtr_dtor (CopyUniquePtr_of_pointer (Some a)) ;;
   CopyUniquePtr_dtor (CopyUniquePtr_of_pointer (Some a))) m = None ∧
  CopyUniquePtr_dtor (CopyUniquePtr_of_pointer_policy (Some a) (mkPolicy false)) m =
    Some (tt, m).
Proof.
  intros Hobj. split; [done|]. split; [|split; [|done]].
  - run_members. by rewrite Hobj.
  - run_members. rewrite Hobj. cbn [cells]. by rewrite lookup_delete_eq.
Qed.

(** X9.  A shared pointer does not keep its referent alive, and nothing
    tells it when the referent goes: once the owner is destroyed a shared
    pointer to the same object dangles, and it can still be copied, the
    copy dangling as well. *)
Theorem shared_pointer_dangles_after_owner p q m a obj :
  get p = Some a → ownsPointer (get_deleter p) = true →
  get q = Some a → ownsPointer (get_deleter q) = false →
  cells m !! a = Some obj →
  ∃ m',
    CopyUniquePtr_dtor p m = Some (tt, m') ∧
    attached m q ∧ ¬ attached m' q ∧
    CopyUniquePtr_bool q = true ∧
    CopyUniquePtr_copy q m' = Some (q, m').
Proof.
  intros Hp Hown Hq Hshared Hobj.
  eexists. split; [by eapply dtor_owned|]. split; [|split; [|split]].
  - exists a. split; [done|]. by eexists.
  - intros (a' & Ha' & [x Hx]). cbn [cells] in Hx.
    assert (a' = a) as -> by congruence. by rewrite lookup_delete_eq in Hx.
  - unfold CopyUniquePtr_bool. by rewrite Hq.
  - by apply copy_shared.
Qed.

(** X10.  A copy is empty exactly when the original is: [operator bool]
    gives the same answer on both, in either mode. *)
Theorem copy_preserves_bool p m :
  owned_live m p →
  ∃ q m', CopyUniquePtr_copy p m = Some (q, m') ∧
          CopyUniquePtr_bool q = CopyUniquePtr_bool p.
Proof.
  intros Hp. destruct (copy_copied p m Hp) as (q & m' & Hcopy & [_ Hq] & _).
  exists q, m'. split; [done|]. unfold CopyUniquePtr_bool.
  destruct (get p) as [a|]; [|by rewrite Hq].
  destruct (ownsPointer (get_deleter p)).
  - destruct Hq as (a' & obj & -> & _). done.
  - by rewrite Hq.
Qed.

Lemma vector_destroy_defined v m :
  is_Some (vector_destroy v m) → well_owned m v.
Proof.
  revert m. induction v as [|p v IH]; intros m [[[] m'] Hrun].
  { split; [constructor|]. intros a Ha. by apply not_elem_of_nil in Ha. }
  revert Hrun. cbn [vector_destroy]. unfold mbind, M_bind.
  destruct (ownsPointer (get_deleter p)) eqn:Hown;
    [destruct (get p) as [a0|] eqn:Ha0|].
  - destruct (cells m !! a0) as [obj|] eqn:Hobj.
    + rewrite (dtor_owned p m a0 obj Hown Ha0 Hobj). intros Hrun.
      destruct (IH _ (ex_intro _ _ Hrun)) as [Hnd Hlive].
      assert (a0 ∉ owned_addrs v) as Hnot.
      { intros Hin. destruct (Hlive a0 Hin) as [x Hx]. cbn [cells] in Hx.
        by rewrite lookup_delete_eq in Hx. }
      unfold well_owned. rewrite owned_addrs_cons, Hown, Ha0. split.
      * by apply NoDup_cons.
      * intros a [->|Hin]%elem_of_cons; [by eexists|].
        destruct (Hlive a Hin) as [x Hx]. cbn [cells] in Hx.
        apply lookup_delete_Some in Hx as [_ Hx]. by eexists.
    + destruct p as [g [b]]. cbn in Hown, Ha0. subst. run_mem.
      by rewrite Hobj.
  - rewrite (dtor_null p m Ha0). intros Hrun.
    destruct (IH _ (ex_intro _ _ Hrun)) as [Hnd Hlive].
    unfold well_owned. by rewrite owned_addrs_cons, Hown, Ha0.
  - rewrite (dtor_shared p m Hown). intros Hrun.
    destruct (IH _ (ex_intro _ _ Hrun)) as [Hnd Hlive].
    unfold well_owned. by rewrite owned_addrs_cons, Hown.
Qed.

(** X13.  Destroying a vector of pointers is defined exactly when its
    owned pointers are live and no address is owned twice.  It then frees
    the owned referents and nothing else: a shared referent that no
    element owns reads as before. *)
Theorem vector_destroy_defined_iff_well_owned v m :
  (is_Some (vector_destroy v m) ↔ well_owned m v) ∧
  (well_owned m v →
   ∃ m', vector_destroy v m = Some (tt, m') ∧
     ∀ a, cells m' !! a =
            if decide (a ∈ owned_addrs v) then None else cells m !! a).
Proof.
  assert (well_owned m v →
          ∃ m', vector_destroy v m = Some (tt, m') ∧
            ∀ a, cells m' !! a =
                   if decide (a ∈ owned_addrs v) then None else cells m !! a)
    as Hdef.
  { intros [Hnd Hlive].
    destruct (vector_destroy_spec v m Hnd Hlive) as (m' & Hrun & Hcells & _).
    by exists m'. }
  split; [|exact Hdef]. split; [apply vector_destroy_defined|].
  intros Hwf. destruct (Hdef Hwf) as (m' & Hrun & _). by eexists.
Qed.

End conditional_policy_facts.

(** * More facts about the copy constructor of Parameter *)
Section parameter_copy_facts.
Context {V C L : Type} `{!Constraint (V := V) C} `{!ParameterListener (V := V) L}.
Implicit Types (w : world V C L) (p : Parameter_ V).

Lemma vector_copy_singleton {T} `{!Clonable T}
    (c : CopyUniquePtr ConditionalOwnershipPolicy) (m : mem T) v' m' :
  vector_copy [c] m = Some (v', m') →
  ∃ q, v' = [q] ∧ CopyUniquePtr_copy c m = Some (q, m').
Proof.
  cbn [vector_copy]. unfold mbind, M_bind, mret, M_ret.
  destruct (CopyUniquePtr_copy c m) as [[q m1]|]; [|done].
  intros [= <- <-]. by exists q.
Qed.

Lemma vector_copy_all_shared {T} `{!Clonable T}
    (v : list (CopyUniquePtr ConditionalOwnershipPolicy)) (m : mem T) :
  Forall (λ l, ownsPointer (get_deleter l) = false) v →
  vector_copy v m = Some (v, m).
Proof.
  induction 1 as [|l v Hl _ IH]; [done|].
  cbn [vector_copy]. unfold mbind, M_bind, mret, M_ret.
  rewrite (copy_shared l m Hl). by rewrite IH.
Qed.

(** X11.  The copy constructor of a Parameter whose owned pointers are
    live delivers no notification and deletes nothing.  It calls clone
    once for each owned, non-null pointer of the original, and for no
    other: the logs grow by these calls alone, in the order of the
    members, and the results are the owned pointers of the copy.  The
    listeners of the copy carry the flags of the original's, one for
    one. *)
Theorem Parameter_copy_clones_once_each p w :
  owned_live (constraints w) (constraint_ p) →
  Forall (owned_live (listeners w)) (listeners_ p) →
  ∃ q w',
    Parameter_copy p w = Return q w' ∧
    notified w' = notified w ∧
    get_deleter (constraint_ q) = get_deleter (constraint_ p) ∧
    get_deleter <$> listeners_ q = get_deleter <$> listeners_ p ∧
    log (constraints w') =
      log (constraints w) ++
      zip_with EvClone (owned_addrs [constraint_ p]) (owned_addrs [constraint_ q]) ∧
    length (owned_addrs [constraint_ q]) = length (owned_addrs [constraint_ p]) ∧
    log (listeners w') =
      log (listeners w) ++
      zip_with EvClone (owned_addrs (listeners_ p)) (owned_addrs (listeners_ q)) ∧
    length (owned_addrs (listeners_ q)) = length (owned_addrs (listeners_ p)).
Proof.
  intros Hc Hls.
  destruct (vector_copy_effect [constraint_ p] (constraints w))
    as (vc & mc & Hvc & Hpolc & _ & _ & _ & Hlenc & Hlogc).
  { by apply Forall_singleton. }
  destruct (vector_copy_singleton _ _ _ _ Hvc) as (c & -> & Hcopy).
  destruct (vector_copy_effect (listeners_ p) (listeners w) Hls)
    as (ls & ml & Hvl & Hpoll & _ & _ & _ & Hlenl & Hlogl).
  exists (mkParameter (name_ p) (value_ p) (precision_ p) c ls),
         (World (params w) mc ml (notified w)).
  split; [|split; [done|split; [|done]]].
  - unfold Parameter_copy. run_world. rewrite Hcopy.
    cbn [params constraints listeners notified]. by rewrite Hvl.
  - cbn in Hpolc. by injection Hpolc.
Qed.

(** X12.  Copying a Parameter that shares its constraint and all its
    listeners gives the same Parameter value and leaves the whole state as
    it was: nothing is allocated, cloned or read, so it also works when a
    shared object is gone. *)
Theorem Parameter_copy_all_shared p w :
  ownsPointer (get_deleter (constraint_ p)) = false →
  Forall (λ l, ownsPointer (get_deleter l) = false) (listeners_ p) →
  Parameter_copy p w = Return p w.
Proof.
  intros Hc Hls. unfold Parameter_copy. run_world.
  rewrite (copy_shared (constraint_ p) (constraints w) Hc).
  cbn [params constraints listeners notified].
  rewrite (vector_copy_all_shared (listeners_ p) (listeners w) Hls).
  by destruct p, w.
Qed.

End parameter_copy_facts.

(** * The theorems at concrete objects *)
Section instances.
Import Examples.
Local Open Scope Z_scope.

Lemma recorder_handlers_total : handlers_total (V := Z) (L := recorder).
Proof. intros event ps l. eexists. reflexivity. Defined.

Lemma w_owned_constraint_live :
  owned_live (constraints w_owned) (constraint_ x_owned).
Proof. intros _ a [= <-]. eexists. reflexivity. Defined.

Lemma w_owned_listeners_attached :
  Forall (attached (listeners w_owned)) (listeners_ x_owned).
Proof.
  repeat constructor.
  - exists 1%positive. split; [reflexivity|]. eexists. reflexivity.
  - exists 2%positive. split; [reflexivity|]. eexists. reflexivity.
Defined.

Lemma w_owned_listeners_live :
  Forall (owned_live (listeners w_owned)) (listeners_ x_owned).
Proof.
  repeat constructor.
  - intros _ a [= <-]. eexists. reflexivity.
  - intros [=].
Defined.

(** The owned pointer to the constraint at address 1 is destroyed. *)
Lemma dtor_frees_iff_owned_witness :
  get (constraint_ x_owned) = Some 1%positive ∧
  cells one_constraint !! 1%positive = Some (Above 0) ∧
  ∃ m', CopyUniquePtr_dtor (constraint_ x_owned) one_constraint = Some (tt, m') ∧
        cells m' !! 1%positive = None ∧
        log m' = [EvDelete 1%positive].
Proof.
  assert (get (constraint_ x_owned) = Some 1%positive) as H1 by reflexivity.
  assert (cells one_constraint !! 1%positive = Some (Above 0)) as H2
    by reflexivity.
  split; [exact H1|]. split; [exact H2|].
  destruct (dtor_frees_iff_owned (constraint_ x_owned) one_constraint
              1%positive (Above 0) H1 H2) as (_ & m' & Hrun & Hiff & Hlog & _).
  exists m'. split; [exact Hrun|]. split.
  - apply Hiff. reflexivity.
  - apply Hlog. reflexivity.
Defined.

(** An owned pointer copied, and assigned to a shared one. *)
Lemma copy_inherits_policy_witness :
  owned_live one_constraint (constraint_ x_shared) ∧
  owned_live one_constraint (constraint_ x_owned) ∧
  (∃ q m', CopyUniquePtr_copy (constraint_ x_owned) one_constraint = Some (q, m') ∧
           ownsPointer (get_deleter q) = true) ∧
  (∃ q m', CopyUniquePtr_assign (constraint_ x_shared) (constraint_ x_owned)
             one_constraint = Some (q, m') ∧
           ownsPointer (get_deleter q) = true).
Proof.
  assert (owned_live one_constraint (constraint_ x_shared)) as H1
    by (intros [=]).
  pose proof w_owned_constraint_live as H2.
  split; [exact H1|]. split; [exact H2|].
  destruct (copy_inherits_policy (constraint_ x_shared) (constraint_ x_owned)
              one_constraint H1 H2)
    as [(q & m' & Hcopy & _ & Hflag) (q2 & m2 & Hassign & _ & Hflag2)].
  split.
  - exists q, m'. split; [exact Hcopy|exact Hflag].
  - exists q2, m2. split; [exact Hassign|exact Hflag2].
Defined.

(** [p = p] for the owned pointer to the constraint at address 1. *)
Lemma self_assignment_safe_witness :
  get (constraint_ x_owned) = Some 1%positive ∧
  cells one_constraint !! 1%positive = Some (Above 0) ∧
  ∃ a' m',
    CopyUniquePtr_assign (constraint_ x_owned) (constraint_ x_owned)
      one_constraint = Some (UP (Some a') (mkPolicy true), m') ∧
    a' ≠ 1%positive ∧ cells one_constraint !! a' = None ∧
    cells m' !! a' = Some (Above 0) ∧
    cells m' !! 1%positive = None ∧
    log m' = [EvClone 1%positive a'; EvDelete 1%positive].
Proof.
  assert (get (constraint_ x_owned) = Some 1%positive) as H1 by reflexivity.
  assert (cells one_constraint !! 1%positive = Some (Above 0)) as H2
    by reflexivity.
  split; [exact H1|]. split; [exact H2|].
  exact (proj2 (self_assignment_safe (constraint_ x_owned) one_constraint
                  1%positive (Above 0) H1 H2)).
Defined.

(** The Parameter that owns its constraint and its first listener. *)
Lemma copy_clones_owned_aliases_shared_witness :
  owned_live (constraints w_owned) (constraint_ x_owned) ∧
  Forall (owned_live (listeners w_owned)) (listeners_ x_owned) ∧
  ∃ q w',
    Parameter_copy x_owned w_owned = Return q w' ∧
    name_ q = name_ x_owned ∧ value_ q = value_ x_owned ∧
    precision_ q = precision_ x_owned ∧
    copied (constraints w_owned) (constraints w') (constraint_ x_owned)
      (constraint_ q) ∧
    Forall2 (copied (listeners w_owned) (listeners w')) (listeners_ x_owned)
      (listeners_ q) ∧
    cells (constraints w_owned) ⊆ cells (constraints w') ∧
    cells (listeners w_owned) ⊆ cells (listeners w') ∧
    params w' = params w_owned.
Proof.
  split; [exact w_owned_constraint_live|].
  split; [exact w_owned_listeners_live|].
  exact (copy_clones_owned_aliases_shared x_owned w_owned
           w_owned_constraint_live w_owned_listeners_live).
Defined.

(** "x" constrained to be above 0: 3 is accepted, -3 is not. *)
Lemma setValue_succeeds_iff_valid_witness :
  params w_owned !! 5%positive = Some x_owned ∧
  get (constraint_ x_owned) = Some 1%positive ∧
  cells (constraints w_owned) !! 1%positive = Some (Above 0) ∧
  Forall (attached (listeners w_owned)) (listeners_ x_owned) ∧
  handlers_total (V := Z) (L := recorder) ∧
  (∃ w', setValue 5%positive 3 w_owned = Return tt w' ∧
         getValue 5%positive w' = Return 3 w') ∧
  setValue 5%positive (-3) w_owned =
    Throw (ConstraintException 5%positive (-3)) w_owned ∧
  getValue 5%positive w_owned = Return 1 w_owned.
Proof.
  assert (params w_owned !! 5%positive = Some x_owned) as H1 by reflexivity.
  assert (get (constraint_ x_owned) = Some 1%positive) as H2 by reflexivity.
  assert (cells (constraints w_owned) !! 1%positive = Some (Above 0)) as H3
    by reflexivity.
  split; [exact H1|]. split; [exact H2|]. split; [exact H3|].
  split; [exact w_owned_listeners_attached|].
  split; [exact recorder_handlers_total|].
  split.
  - apply (setValue_succeeds_iff_valid 5%positive x_owned 1%positive (Above 0)
             3 w_owned H1 H2 H3 w_owned_listeners_attached
             recorder_handlers_total).
    reflexivity.
  - apply (setValue_succeeds_iff_valid 5%positive x_owned 1%positive (Above 0)
             (-3) w_owned H1 H2 H3 w_owned_listeners_attached
             recorder_handlers_total).
    reflexivity.
Defined.

(** Two more registrations on "x", then [setValue(3)]: four
    notifications, in the order of [listeners_] and then of registration. *)
Lemma setValue_notifies_in_registration_order_witness :
  params w_owned !! 5%positive = Some x_owned ∧
  Forall (attached (listeners w_owned)) (listeners_ x_owned) ∧
  (∀ a, a ∈ [(2%positive, false); (1%positive, false)].*1 →
        is_Some (cells (listeners w_owned) !! a)) ∧
  accepts w_owned x_owned 3 ∧
  handlers_total (V := Z) (L := recorder) ∧
  ∃ w', (register_all 5%positive [(2%positive, false); (1%positive, false)] ;;
         setValue 5%positive 3) w_owned = Return tt w' ∧
    notified w' =
      [notice 5%positive 3 1%positive; notice 5%positive 3 2%positive;
       notice 5%positive 3 2%positive; notice 5%positive 3 1%positive] ∧
    length [1%positive; 2%positive; 2%positive; 1%positive] = (2 + 2)%nat ∧
    getValue 5%positive w' = Return 3 w'.
Proof.
  assert (params w_owned !! 5%positive = Some x_owned) as H1 by reflexivity.
  assert (∀ a, a ∈ [(2%positive, false); (1%positive, false)].*1 →
               is_Some (cells (listeners w_owned) !! a)) as H3.
  { intros a Ha. cbn in Ha.
    apply elem_of_cons in Ha as [->|Ha]; [eexists; reflexivity|].
    apply elem_of_cons in Ha as [->|Ha]; [eexists; reflexivity|].
    by apply not_elem_of_nil in Ha. }
  assert (accepts w_owned x_owned 3) as H4.
  { intros a [= <-]. exists (Above 0). split; reflexivity. }
  split; [exact H1|]. split; [exact w_owned_listeners_attached|].
  split; [exact H3|]. split; [exact H4|].
  split; [exact recorder_handlers_total|].
  exact (setValue_notifies_in_registration_order 5%positive x_owned
           [(2%positive, false); (1%positive, false)] 3 w_owned H1
           w_owned_listeners_attached H3 H4 recorder_handlers_total).
Defined.

(** Removing the listeners with id "a" from "x": the one with id "b"
    stays. *)
Lemma removeParameterListener_removes_all_matching_witness :
  params w_owned !! 5%positive = Some x_owned ∧
  Forall (attached (listeners w_owned)) (listeners_ x_owned) ∧
  NoDup (owned_addrs (listeners_ x_owned)) ∧
  ∃ w',
    removeParameterListener 5%positive "a" w_owned = Return tt w' ∧
    listeners_ <$> params w' !! 5%positive =
      Some [UP (Some 2%positive) (mkPolicy false)] ∧
    hasParameterListener 5%positive "a" w' = Return false w'.
Proof.
  assert (params w_owned !! 5%positive = Some x_owned) as H1 by reflexivity.
  assert (NoDup (owned_addrs (listeners_ x_owned))) as H3
    by apply NoDup_singleton.
  split; [exact H1|]. split; [exact w_owned_listeners_attached|].
  split; [exact H3|].
  destruct (removeParameterListener_removes_all_matching 5%positive x_owned "a"
              w_owned H1 w_owned_listeners_attached H3)
    as (w' & Hrun & Hp & _ & Hhas & _).
  exists w'. split; [exact Hrun|]. split; [|exact Hhas].
  rewrite Hp. reflexivity.
Defined.

(** "x" with everything shared: the constraint at address 1 set and the
    listener at address 2 added, both without the attach argument. *)
Lemma attach_defaults_asymmetric_witness :
  params w_shared !! 5%positive = Some x_shared ∧
  owned_live (constraints w_shared) (constraint_ x_shared) ∧
  Forall (owned_live (listeners w_shared)) (listeners_ x_shared) ∧
  NoDup (owned_addrs (listeners_ x_shared ++ [UP (Some 2%positive) (mkPolicy true)])) ∧
  cells (listeners w_shared) !! 2%positive = Some (Recorder "b" []) ∧
  ∃ w1 p1,
    (call_setConstraint 5%positive (Some 1%positive) None ;;
     call_addParameterListener 5%positive (Some 2%positive) None) w_shared =
      Return tt w1 ∧
    params w1 !! 5%positive = Some p1 ∧
    ownsPointer (get_deleter (constraint_ p1)) = false ∧
    (ownsPointer ∘ get_deleter) <$> last (listeners_ p1) = Some true.
Proof.
  assert (params w_shared !! 5%positive = Some x_shared) as H1 by reflexivity.
  assert (owned_live (constraints w_shared) (constraint_ x_shared)) as H2
    by (intros [=]).
  assert (Forall (owned_live (listeners w_shared)) (listeners_ x_shared)) as H3
    by (repeat constructor; intros [=]).
  assert (NoDup (owned_addrs (listeners_ x_shared ++
                                [UP (Some 2%positive) (mkPolicy true)]))) as H4
    by apply NoDup_singleton.
  assert (cells (listeners w_shared) !! 2%positive = Some (Recorder "b" []))
    as H5 by reflexivity.
  split; [exact H1|]. split; [exact H2|]. split; [exact H3|].
  split; [exact H4|]. split; [exact H5|].
  destruct (attach_defaults_asymmetric 5%positive x_shared 1%positive
              2%positive (Recorder "b" []) w_shared H1 H2 H3 H4 H5)
    as (w1 & p1 & Hrun & Hp1 & Hc & Hl & _).
  exists w1, p1. split; [exact Hrun|]. split; [exact Hp1|].
  split; [by rewrite Hc|]. rewrite Hl, last_snoc. reflexivity.
Defined.

(** The exponential distribution at address 3 is registered on the
    Parameter "Exponential.lambda" at address 7, whose value goes from 1
    to 2. *)
Lemma exponential_recomputes_once_witness :
  base_keeps_parameters (V := Z) (D := list Z) ∧
  params w_exponential !! 7%positive = Some lambda_parameter ∧
  listeners_ lambda_parameter = [UP (Some 3%positive) (mkPolicy false)] ∧
  cells (listeners w_exponential) !! 3%positive = Some exponential ∧
  lambda_is exponential 7%positive ∧
  accepts w_exponential lambda_parameter 2 ∧
  ∃ w' d',
    setValue 7%positive 2 w_exponential = Return tt w' ∧
    notified w' = [notice 7%positive 2 3%positive] ∧
    cells (listeners w') !! 3%positive = Some d' ∧
    lambda_ d' = 2 ∧
    distribution_ (base d') = [2; 2; 2; 2] ∧
    getValue 7%positive w' = Return 2 w'.
Proof.
  assert (base_keeps_parameters (V := Z) (D := list Z)) as H0
    by (intros parameters b; split; reflexivity).
  assert (params w_exponential !! 7%positive = Some lambda_parameter) as H1
    by reflexivity.
  assert (listeners_ lambda_parameter = [UP (Some 3%positive) (mkPolicy false)])
    as H2 by reflexivity.
  assert (cells (listeners w_exponential) !! 3%positive = Some exponential)
    as H3 by reflexivity.
  assert (lambda_is exponential 7%positive) as H4 by (vm_compute; reflexivity).
  assert (accepts w_exponential lambda_parameter 2) as H5.
  { intros a [= <-]. exists (Above 0). split; reflexivity. }
  split; [exact H0|]. split; [exact H1|]. split; [exact H2|].
  split; [exact H3|]. split; [exact H4|]. split; [exact H5|].
  destruct (exponential_recomputes_once 7%positive 3%positive lambda_parameter
              (mkPolicy false) exponential 2 w_exponential H0 H1 H2 H3 H4 H5)
    as (w' & d' & Hrun & Hn & Hd' & Heq & Hlam & Hdist & Hget & _).
  exists w', d'. split; [exact Hrun|]. split; [exact Hn|].
  split; [exact Hd'|]. split; [exact Hlam|]. split; [|exact Hget].
  rewrite Hdist, Heq. reflexivity.
Defined.

End instances.

(** * The further theorems at concrete objects *)
Section more_instances.
Import Examples.
Local Open Scope Z_scope.

Lemma two_recorders_well_owned : well_owned two_recorders (listeners_ x_owned).
Proof.
  split; [apply NoDup_singleton|].
  intros a Ha. apply list_elem_of_singleton in Ha as ->. eexists. reflexivity.
Defined.

(** A pointer with the default policy to the constraint at address 1. *)
Lemma default_policy_clones_and_frees_witness :
  get (UP (P := DefaultPtrPolicy) (Some 1%positive) mkDefaultPtrPolicy) =
    Some 1%positive ∧
  cells one_constraint !! 1%positive = Some (Above 0) ∧
  (∃ a' m',
     CopyUniquePtr_copy (UP (Some 1%positive) mkDefaultPtrPolicy) one_constraint =
       Some (UP (Some a') mkDefaultPtrPolicy, m') ∧ a' ≠ 1%positive) ∧
  ∃ m', CopyUniquePtr_dtor (UP (Some 1%positive) mkDefaultPtrPolicy) one_constraint =
          Some (tt, m') ∧ log m' = [EvDelete 1%positive].
Proof.
  assert (get (UP (P := DefaultPtrPolicy) (Some 1%positive) mkDefaultPtrPolicy) =
            Some 1%positive) as H1 by reflexivity.
  assert (cells one_constraint !! 1%positive = Some (Above 0)) as H2
    by reflexivity.
  split; [exact H1|]. split; [exact H2|].
  destruct (default_policy_clones_and_frees
              (UP (Some 1%positive) mkDefaultPtrPolicy) one_constraint
              1%positive (Above 0) H1 H2) as [(a' & Hcopy & Hne & _) Hdtor].
  split.
  - exists a'. eexists. split; [exact Hcopy|exact Hne].
  - eexists. split; [exact Hdtor|reflexivity].
Defined.

(** The listeners of "x", one owned and one shared, copied and the copy
    destroyed. *)
Lemma copy_then_destroy_copy_witness :
  Forall (owned_live two_recorders) (listeners_ x_owned) ∧
  ∃ v' m' m'',
    vector_copy (listeners_ x_owned) two_recorders = Some (v', m') ∧
    vector_destroy v' m' = Some (tt, m'') ∧
    cells m'' = cells two_recorders.
Proof.
  split; [exact w_owned_listeners_live|].
  exact (copy_then_destroy_copy (listeners_ x_owned) two_recorders
           w_owned_listeners_live).
Defined.

Lemma copy_keeps_ownership_exclusive_witness :
  well_owned two_recorders (listeners_ x_owned) ∧
  ∃ v' m' m'',
    vector_copy (listeners_ x_owned) two_recorders = Some (v', m') ∧
    well_owned m' (listeners_ x_owned ++ v') ∧
    vector_destroy (listeners_ x_owned ++ v') m' = Some (tt, m'').
Proof.
  split; [exact two_recorders_well_owned|].
  exact (copy_keeps_ownership_exclusive (listeners_ x_owned) two_recorders
           two_recorders_well_owned).
Defined.

(** The owned pointer to the constraint at address 1 is move-assigned a
    shared null pointer: the constraint is deleted all the same. *)
Lemma move_assign_releases_by_old_flag_witness :
  owned_live one_constraint (constraint_ x_owned) ∧
  ∃ m',
    CopyUniquePtr_move_assign (constraint_ x_owned) (UP None (mkPolicy false))
      one_constraint =
      Some ((UP None (mkPolicy false), UP None (mkPolicy false)), m') ∧
    cells m' !! 1%positive = None.
Proof.
  split; [exact w_owned_constraint_live|].
  destruct (move_assign_releases_by_old_flag (constraint_ x_owned)
              (UP None (mkPolicy false)) one_constraint w_owned_constraint_live)
    as (m' & Hrun & _ & Hiff).
  exists m'. split; [exact Hrun|].
  apply (Hiff 1%positive (Above 0)); reflexivity.
Defined.

Lemma assign_nullptr_releases_witness :
  owned_live one_constraint (constraint_ x_owned) ∧
  ∃ m',
    CopyUniquePtr_assign_nullptr (constraint_ x_owned) one_constraint =
      Some (UP None (mkPolicy true), m') ∧
    cells m' !! 1%positive = None.
Proof.
  split; [exact w_owned_constraint_live|].
  destruct (assign_nullptr_releases (constraint_ x_owned) one_constraint
              w_owned_constraint_live) as (m' & Hrun & _ & _ & Hiff).
  exists m'. split; [exact Hrun|].
  apply (Hiff 1%positive (Above 0)); reflexivity.
Defined.

Lemma move_transfers_ownership_witness :
  owned_live one_constraint (constraint_ x_owned) ∧
  CopyUniquePtr_move (constraint_ x_owned) =
    (constraint_ x_owned, UP None (mkPolicy true)) ∧
  ∃ m', (CopyUniquePtr_dtor (snd (CopyUniquePtr_move (constraint_ x_owned))) ;;
         CopyUniquePtr_dtor (fst (CopyUniquePtr_move (constraint_ x_owned))))
          one_constraint = Some (tt, m') ∧
        log m' = [EvDelete 1%positive].
Proof.
  split; [exact w_owned_constraint_live|]. split; [reflexivity|].
  destruct (move_transfers_ownership (constraint_ x_owned) one_constraint
              w_owned_constraint_live) as (_ & _ & _ & Hboth & Honce).
  destruct (Honce 1%positive eq_refl eq_refl) as (m' & Hdtor & Hlog).
  exists m'. split; [|exact Hlog]. rewrite Hboth. exact Hdtor.
Defined.

(** The shared pointer to the constraint at address 1 is assigned the
    owned pointer to the same constraint: it becomes the owner of a clone,
    and the constraint at address 1 stays. *)
Lemma assign_copies_and_releases_witness :
  owned_live one_constraint (constraint_ x_shared) ∧
  owned_live one_constraint (constraint_ x_owned) ∧
  ∃ q m',
    CopyUniquePtr_assign (constraint_ x_shared) (constraint_ x_owned)
      one_constraint = Some (q, m') ∧
    ownsPointer (get_deleter q) = true ∧
    cells m' !! 1%positive ≠ None.
Proof.
  assert (owned_live one_constraint (constraint_ x_shared)) as H1
    by (intros [=]).
  split; [exact H1|]. split; [exact w_owned_constraint_live|].
  destruct (assign_copies_and_releases (constraint_ x_shared)
              (constraint_ x_owned) one_constraint H1 w_owned_constraint_live)
    as (q & m' & Hrun & [Hpol _] & Hiff).
  exists q, m'. split; [exact Hrun|]. split; [by rewrite Hpol|].
  intros Hnone. apply (Hiff 1%positive (Above 0)) in Hnone; [|reflexivity..].
  discriminate Hnone.
Defined.

Lemma pointer_alone_is_owned_witness :
  cells one_constraint !! 1%positive = Some (Above 0) ∧
  (CopyUniquePtr_dtor
     (CopyUniquePtr_of_pointer (P := ConditionalOwnershipPolicy) (Some 1%positive)) ;;
   CopyUniquePtr_dtor (CopyUniquePtr_of_pointer (Some 1%positive)))
    one_constraint = None.
Proof.
  assert (cells one_constraint !! 1%positive = Some (Above 0)) as H1
    by reflexivity.
  split; [exact H1|].
  apply (pointer_alone_is_owned one_constraint 1%positive (Above 0) H1).
Defined.

Lemma shared_pointer_dangles_after_owner_witness :
  get (constraint_ x_owned) = Some 1%positive ∧
  ownsPointer (get_deleter (constraint_ x_owned)) = true ∧
  get (constraint_ x_shared) = Some 1%positive ∧
  ownsPointer (get_deleter (constraint_ x_shared)) = false ∧
  cells one_constraint !! 1%positive = Some (Above 0) ∧
  ∃ m',
    CopyUniquePtr_dtor (constraint_ x_owned) one_constraint = Some (tt, m') ∧
    ¬ attached m' (constraint_ x_shared) ∧
    CopyUniquePtr_copy (constraint_ x_shared) m' = Some (constraint_ x_shared, m').
Proof.
  assert (cells one_constraint !! 1%positive = Some (Above 0)) as H5
    by reflexivity.
  repeat (split; [reflexivity|]).
  destruct (shared_pointer_dangles_after_owner (constraint_ x_owned)
              (constraint_ x_shared) one_constraint 1%positive (Above 0)
              eq_refl eq_refl eq_refl eq_refl H5)
    as (m' & Hdtor & _ & Hdangling & _ & Hcopy).
  exists m'. split; [exact Hdtor|]. split; [exact Hdangling|exact Hcopy].
Defined.

Lemma copy_preserves_bool_witness :
  owned_live one_constraint (constraint_ x_owned) ∧
  ∃ q m', CopyUniquePtr_copy (constraint_ x_owned) one_constraint = Some (q, m') ∧
          CopyUniquePtr_bool q = true.
Proof.
  split; [exact w_owned_constraint_live|].
  exact (copy_preserves_bool (constraint_ x_owned) one_constraint
           w_owned_constraint_live).
Defined.

(** The owned listener of "x" is destroyed with the vector, the shared
    one stays. *)
Lemma vector_destroy_defined_iff_well_owned_witness :
  well_owned two_recorders (listeners_ x_owned) ∧
  ∃ m', vector_destroy (listeners_ x_owned) two_recorders = Some (tt, m') ∧
        cells m' !! 1%positive = None ∧
        cells m' !! 2%positive = Some (Recorder "b" []).
Proof.
  split; [exact two_recorders_well_owned|].
  destruct (proj2 (vector_destroy_defined_iff_well_owned (listeners_ x_owned)
                     two_recorders) two_recorders_well_owned)
    as (m' & Hrun & Hcells).
  exists m'. split; [exact Hrun|]. by rewrite !Hcells.
Defined.

(** "x" owning its constraint and its first listener: two calls of clone,
    one per heap. *)
Lemma Parameter_copy_clones_once_each_witness :
  owned_live (constraints w_owned) (constraint_ x_owned) ∧
  Forall (owned_live (listeners w_owned)) (listeners_ x_owned) ∧
  ∃ q w',
    Parameter_copy x_owned w_owned = Return q w' ∧
    notified w' = [] ∧
    length (log (constraints w')) = 1%nat ∧
    length (log (listeners w')) = 1%nat.
Proof.
  split; [exact w_owned_constraint_live|].
  split; [exact w_owned_listeners_live|].
  destruct (Parameter_copy_clones_once_each x_owned w_owned
              w_owned_constraint_live w_owned_listeners_live)
    as (q & w' & Hrun & Hn & _ & _ & Hlogc & Hlenc & Hlogl & Hlenl).
  exists q, w'. split; [exact Hrun|]. split; [exact Hn|].
  rewrite Hlogc, Hlogl, !length_app, !length_zip_with, Hlenc, Hlenl.
  split; reflexivity.
Defined.

Lemma Parameter_copy_all_shared_witness :
  ownsPointer (get_deleter (constraint_ x_shared)) = false ∧
  Forall (λ l, ownsPointer (get_deleter l) = false) (listeners_ x_shared) ∧
  Parameter_copy x_shared w_shared = Return x_shared w_shared.
Proof.
  assert (Forall (λ l, ownsPointer (get_deleter l) = false)
            (listeners_ x_shared)) as H2 by (repeat constructor).
  split; [reflexivity|]. split; [exact H2|].
  exact (Parameter_copy_all_shared x_shared w_shared eq_refl H2).
Defined.

End more_instances.
